(** * Anagram search by prime signatures: a shallow embedding of [anagram.py]

    The development follows the Python module function by function.
    Python integers are unbounded, so they are modelled by [Z]; the
    quotient [value/number] of two integers is Python's true division,
    which yields a binary64 float, and is modelled exactly (the correctly
    rounded quotient, as CPython computes it).  Exceptions are explicit
    results; recursion that Python does not bound is given fuel. *)

From Stdlib Require Import ZArith Ascii String Lia.
From stdpp Require Import base tactics option list sorting gmap strings.

#[local] Open Scope Z_scope.
#[local] Set Warnings "-register-all".

(** ** Outcomes of Python computations *)

Inductive exn := KeyError | IndexError | ZeroDivisionError | OverflowError.

Inductive result (A : Type) : Type :=
  | Ret (a : A)
  | Raise (e : exn)
  | OutOfFuel.
Arguments Ret {A} a.
Arguments Raise {A} e.
Arguments OutOfFuel {A}.

#[global] Instance result_ret : MRet result := @Ret.
#[global] Instance result_bind : MBind result := fun A B f m =>
  match m with
  | Ret a => f a
  | Raise e => Raise e
  | OutOfFuel => OutOfFuel
  end.
#[global] Instance exn_eq_dec : EqDecision exn.
Proof. solve_decision. Defined.
#[global] Instance result_eq_dec {A} `{EqDecision A} : EqDecision (result A).
Proof. solve_decision. Defined.

Definition of_option {A} (e : exn) (o : option A) : result A :=
  match o with Some a => Ret a | None => Raise e end.

(** ** Python arithmetic *)

Module Py.

(** A binary64 value [mant * 2^expo]. *)
Record float := Float { mant : Z; expo : Z }.

(** Nearest integer to [a/b], ties to the even one ([0 <= a], [0 < b]). *)
Definition round_half_even (a b : Z) : Z :=
  let q := a / b in
  match 2 * (a mod b) ?= b with
  | Lt => q
  | Gt => q + 1
  | Eq => if Z.even q then q else q + 1
  end.

(** [2^e <= n/d], for positive [n] and [d]. *)
Definition quot_ge_pow2 (n d e : Z) : bool :=
  if 0 <=? e then d * 2 ^ e <=? n else d <=? n * 2 ^ (- e).

(** [floor (log2 (n/d))], for positive [n] and [d]. *)
Definition quot_log2 (n d : Z) : Z :=
  let e0 := Z.log2 n - Z.log2 d in
  if quot_ge_pow2 n d e0 then e0 else e0 - 1.

(** [a / b] on two ints: the binary64 value nearest to the exact
    quotient (53 significant bits, ties to even, subnormals below
    [2^-1022]); [ZeroDivisionError] for [b = 0], [OverflowError] when
    the rounded quotient does not fit a float. *)
Definition truediv (a b : Z) : result float :=
  if b =? 0 then Raise ZeroDivisionError
  else if a =? 0 then Ret (Float 0 0)
  else
    let n := Z.abs a in
    let d := Z.abs b in
    let x := Z.max (quot_log2 n d - 52) (-1074) in
    let m := if 0 <=? x then round_half_even n (d * 2 ^ x)
             else round_half_even (n * 2 ^ (- x)) d in
    if 2 ^ 1024 <=? m * 2 ^ x then Raise OverflowError
    else Ret (Float (Z.sgn a * Z.sgn b * m) x).

(** [int(f)]: truncation towards zero. *)
Definition int (f : float) : Z :=
  if 0 <=? expo f then mant f * 2 ^ expo f
  else Z.quot (mant f) (2 ^ (- expo f)).

(** [f == z] for a float and an int: exact comparison. *)
Definition eqb_int (f : float) (z : Z) : bool :=
  if 0 <=? expo f then mant f * 2 ^ expo f =? z
  else mant f =? z * 2 ^ (- expo f).

(** [round(f)]: nearest int, ties to even. *)
Definition round (f : float) : Z :=
  if 0 <=? expo f then mant f * 2 ^ expo f
  else Z.sgn (mant f) * round_half_even (Z.abs (mant f)) (2 ^ (- expo f)).

(** [a % b]: the remainder has the sign of [b]. *)
Definition mod_ (a b : Z) : result Z :=
  if b =? 0 then Raise ZeroDivisionError else Ret (a mod b).

(** [int(a / b)]. *)
Definition int_truediv (a b : Z) : result Z :=
  f ← truediv a b; mret (int f).

#[global] Arguments truediv : simpl never.
#[global] Arguments int_truediv : simpl never.

End Py.

(** ** Letter encoder *)

Abbreviation word := (list ascii).

Definition primes_table : list (ascii * Z) :=
  [("a", 2); ("b", 3); ("c", 5); ("d", 7); ("e", 11); ("f", 13); ("g", 17);
   ("h", 19); ("i", 23); ("j", 29); ("k", 31); ("l", 37); ("m", 41);
   ("n", 43); ("o", 47); ("p", 53); ("q", 59); ("r", 61); ("s", 67);
   ("t", 71); ("u", 73); ("v", 79); ("w", 83); ("x", 89); ("y", 97);
   ("z", 101)]%char.

Definition primes : gmap ascii Z := list_to_map primes_table.
#[global] Arguments primes : simpl never.

(** [reduce(mul, iterable, 1)] *)
Definition prod (iterable : list Z) : Z := fold_left Z.mul iterable 1.
#[global] Arguments prod : simpl never.

(** [[primes[x] for x in word]]: the first letter missing from the table
    raises [KeyError]. *)
Definition letter_primes (w : word) : result (list Z) :=
  mapM (λ x, of_option KeyError (primes !! x)) w.

Definition word_signature (w : word) : result Z :=
  ps ← letter_primes w; mret (prod ps).

Definition str (s : string) : word := list_ascii_of_string s.

(** The letters of the table. *)
Definition table_letter (c : ascii) : Prop := is_Some (primes !! c).

#[global] Instance table_letter_dec (c : ascii) : Decision (table_letter c).
Proof. unfold table_letter. apply _. Defined.

(** ** Dictionary and sub-signature enumeration *)

(** The unpickled dictionary: signature to the words that share it. *)
Abbreviation dict := (gmap Z (list word)).

(** [itertools.combinations(l, r)]: the [r]-element subsequences of [l],
    in lexicographic order of positions. *)
Fixpoint combinations {A} (l : list A) (r : nat) : list (list A) :=
  match r with
  | O => [[]]
  | S r' =>
      match l with
      | [] => []
      | x :: l' => map (cons x) (combinations l' r') ++ combinations l' r
      end
  end.

(** [range(lo, hi)] *)
Definition range (lo hi : Z) : list Z :=
  map (λ i, lo + Z.of_nat i) (seq 0 (Z.to_nat (hi - lo))).

(** The loop of [sub_word_signatures]: the signatures of every
    combination of [i] letters, for the sizes [i] given. *)
Fixpoint extend_signatures (w : word) (sizes : list Z) (word_perms : list Z)
  : result (list Z) :=
  match sizes with
  | [] => Ret word_perms
  | i :: sizes' =>
      sigs ← mapM word_signature (combinations w (Z.to_nat i));
      extend_signatures w sizes' (word_perms ++ sigs)
  end.

(** [sorted(l, reverse=True)] on integers.  The list sorted below is
    read from a set: whatever the order in which the set yields its
    elements, they are distinct and the sorted list is the same. *)
Definition sorted_reverse (l : list Z) : list Z := merge_sort Z.ge l.

Definition sub_word_signatures (dictionary : dict) (w : word)
  : result (list Z) :=
  word_perms ← extend_signatures w (range 1 (Z.of_nat (length w) + 1)) [];
  mret (sorted_reverse
          (filter (λ signature, signature ∈ dom dictionary)
                  (remove_dups word_perms))).

(** ** Recursive factorizer *)

(** What a [Node] holds in this program: the phrase at the root,
    [dictionary[number]] at an inner node, [[dictionary[value]]] at a
    leaf. *)
Inductive label :=
  | Phrase (base : word)
  | Words (ws : list word)
  | WordLists (wss : list (list word)).

(** [Node(value, children=[])].  The nodes built without children share
    the list of the default argument; nothing here ever changes it. *)
Inductive Node := mkNode (value : label) (children : list Node).

Definition value (n : Node) : label := let 'mkNode v _ := n in v.
Definition children (n : Node) : list Node := let 'mkNode _ c := n in c.

Definition lookup_dict (dictionary : dict) (k : Z) : result (list word) :=
  of_option KeyError (dictionary !! k).

(** The value [factor] returns: [dictionary[value]], or a list of
    one-key dicts [{str(dictionary[number]) : factored}]; a key is kept
    as the word list it prints. *)
Inductive json :=
  | JWords (ws : list word)
  | JDicts (entries : list (list word * json)).

Definition len (j : json) : nat :=
  match j with
  | JWords ws => length ws
  | JDicts entries => length entries
  end.

Section factorizer.
Variable dictionary : dict.

(** The [for number in numbers] loop of [factor_to_tree]; [self] is the
    recursive call [factor_to_tree(_, numbers)]. *)
Fixpoint factor_to_tree_loop (self : Z → result (list Node)) (value : Z)
    (rest : list Z) (factorizations : list Node) : result (list Node) :=
  match rest with
  | [] => Ret factorizations
  | number :: rest' =>
      if negb (value =? number) then
        r ← Py.mod_ value number;
        if r =? 0 then
          q ← Py.int_truediv value number;
          factored ← self q;
          if (0 <? length factored)%nat then
            ws ← lookup_dict dictionary number;
            factor_to_tree_loop self value rest'
              (factorizations ++ [mkNode (Words ws) factored])
          else factor_to_tree_loop self value rest' factorizations
        else factor_to_tree_loop self value rest' factorizations
      else
        ws ← lookup_dict dictionary value;
        Ret [mkNode (WordLists [ws]) []]
  end.

Fixpoint factor_to_tree (fuel : nat) (value : Z) (numbers : list Z)
  : result (list Node) :=
  match fuel with
  | O => OutOfFuel
  | S fuel' =>
      factor_to_tree_loop (λ q, factor_to_tree fuel' q numbers)
        value numbers []
  end.

(** The loop of [factor].  The dictionary holds lists of words, so
    [type(factored) is int] is never true. *)
Fixpoint factor_loop (self : Z → result json) (value : Z)
    (rest : list Z) (factorizations : list (list word * json)) : result json :=
  match rest with
  | [] => Ret (JDicts factorizations)
  | number :: rest' =>
      r ← Py.mod_ value number;
      proper ← (if r =? 0
                then q ← Py.int_truediv value number; mret (negb (q =? 1))
                else mret false);
      if proper : bool then
        q ← Py.int_truediv value number;
        factored ← self q;
        if negb (len factored =? 0)%nat then
          ws ← lookup_dict dictionary number;
          factor_loop self value rest' (factorizations ++ [(ws, factored)])
        else factor_loop self value rest' factorizations
      else
        f ← Py.truediv value number;
        if Py.eqb_int f 1 then
          ws ← lookup_dict dictionary value;
          Ret (JWords ws)
        else factor_loop self value rest' factorizations
  end.

Fixpoint factor (fuel : nat) (value : Z) (numbers : list Z) : result json :=
  match fuel with
  | O => OutOfFuel
  | S fuel' =>
      factor_loop (λ q, factor fuel' q numbers) value numbers []
  end.
End factorizer.

(** ** Program state and the two search modes *)

(** The module-level variables set by [prepare_data]. *)
Record globals := Globals {
  dictionary : dict;
  base : word;
  base_signature : Z;
  perms : list Z
}.

(** [str.lower] on a character of the one-byte range: the ASCII
    capitals and the accented capitals (all of 192 to 222 but the
    multiplication sign) move down by 32, every other character stays.
    Code points beyond the one-byte range are read by [read_codepoint]
    below. *)
Definition lower (c : ascii) : ascii :=
  let n := nat_of_ascii c in
  if ((65 <=? n) && (n <=? 90)
      || (192 <=? n) && (n <=? 222) && negb (n =? 215))%nat
  then ascii_of_nat (n + 32) else c.

(** [prepare_data(word)]; [pickle] is the dictionary read from the
    pickle file, [word] is [args.words], a list holding the list of the
    words given on the command line. *)
Definition prepare_data (pickle : dict) (word : list (list word))
  : result globals :=
  words ← of_option IndexError (head word);
  let base := map lower (concat words) in
  base_signature ← word_signature base;
  perms ← sub_word_signatures pickle base;
  mret (Globals pickle base base_signature perms).

(** ** The phrase as typed *)

(** The command line hands Python Unicode text: a [str] is a sequence
    of code points. *)
Definition codepoint : Type := N.
Definition text : Type := list codepoint.

(** [str.isspace] on one code point. *)
Definition is_whitespace (u : codepoint) : bool :=
  ((9 <=? u) && (u <=? 13) || (28 <=? u) && (u <=? 32)
   || (u =? 133) || (u =? 160) || (u =? 5760)
   || (8192 <=? u) && (u <=? 8202)
   || (u =? 8232) || (u =? 8233) || (u =? 8239) || (u =? 8287)
   || (u =? 12288))%N.

(** The characters of this development are the code points of the
    one-byte range.  [read_codepoint] reads a code point of the command
    line as one of them, so that [lower] followed by the look-up in
    [primes] gives what [str.lower] followed by [primes[x]] gives in
    Python:
    - a code point below 256 is itself;
    - the KELVIN SIGN U+212A is read as "K": apart from the capitals A
      to Z it is the one code point that [str.lower] sends to a table
      letter, "k";
    - the lowercase form of every other code point holds a character
      that is no table letter (for U+0130 it is "i" followed by
      U+0307); such a code point is read as the byte 255, which [lower]
      leaves alone and which is no table letter either. *)
Definition read_codepoint (u : codepoint) : ascii :=
  if (u <? 256)%N then ascii_of_N u
  else if (u =? 8490)%N then "K"%char
  else ascii_of_N 255.

Definition read_text (t : text) : word := map read_codepoint t.

(** [args.words] as typed, read for [prepare_data]. *)
Definition read_args (args : list (list text)) : list (list word) :=
  map (map read_text) args.

(** The text of a word of one-byte characters. *)
Definition text_of (w : word) : text := map N_of_ascii w.

(** The phrase in the words of the specification: the input with
    whitespace removed and letters lowercased. *)
Definition spec_phrase (words : list text) : word :=
  map lower
    (read_text (filter (λ u, is_whitespace u = false) (concat words))).

(** [recursive(args)] without [--json]: the tree handed to the printer. *)
Definition recursive_tree (fuel : nat) (pickle : dict) (words : list (list word))
  : result Node :=
  g ← prepare_data pickle words;
  forest ← factor_to_tree (dictionary g) fuel (base_signature g) (perms g);
  mret (mkNode (Phrase (base g)) forest).

(** [recursive(args)] with [--json]: the value dumped. *)
Definition recursive_json (fuel : nat) (pickle : dict) (words : list (list word))
  : result json :=
  g ← prepare_data pickle words;
  factor (dictionary g) fuel (base_signature g) (perms g).

Section iterative.
Variable g : globals.

(** [sum(len(dictionary[x][0]) for x in combs)] *)
Definition letter_count (combs : list Z) : result Z :=
  lens ← mapM (λ x, ws ← lookup_dict (dictionary g) x;
                     w ← of_option IndexError (head ws);
                     mret (Z.of_nat (length w))) combs;
  mret (foldr Z.add 0 lens).

Definition pre_filter (combs : list Z) : result bool :=
  n ← letter_count combs; mret (n =? Z.of_nat (length (base g))).

(** [prod_and_filter]: the combination, or [None] for [False]. *)
Definition prod_and_filter (combination : list Z) : option (list Z) :=
  if prod combination =? base_signature g then Some combination else None.

(** Truth value of what [prod_and_filter] returns: [False] and the empty
    tuple are false. *)
Definition truthy (possibility : option (list Z)) : bool :=
  match possibility with
  | Some (_ :: _) => true
  | _ => false
  end.

(** [set(combinations(perms, size))], in the order of [combinations]. *)
Definition size_combinations (size : Z) : list (list Z) :=
  remove_dups (combinations (perms g) (Z.to_nat size)).

(** A lazy [filter(p, xs)] read to its end or to the first exception:
    the elements let through, and how reading ended. *)
Fixpoint lazy_filter {A} (p : A → result bool) (xs : list A)
  : list A * result unit :=
  match xs with
  | [] => ([], Ret ())
  | x :: xs' =>
      match p x with
      | Ret b =>
          let '(ys, e) := lazy_filter p xs' in
          (if b then x :: ys else ys, e)
      | Raise e => ([], Raise e)
      | OutOfFuel => ([], OutOfFuel)
      end
  end.

(** [min(round(len(base)/4) + 1, 5)] *)
Definition max_words : result Z :=
  f ← Py.truediv (Z.of_nat (length (base g))) 4;
  mret (Z.min (Py.round f + 1) 5).

(** The search loop of [iterative] when every pool returns its results
    in submission order and sets are read in the order of
    [combinations]: the combinations printed, and how the run ended. *)
Definition iterative_in_order (max_words : Z) : list (list Z) * result unit :=
  let batches := map size_combinations (range 1 max_words) in
  let '(all_combs, e) := lazy_filter pre_filter (concat batches) in
  (filter (λ c, truthy (prod_and_filter c)) all_combs, e).

(** What the first pool produces before [pre_filter] is applied, for any
    order in which it returns the sizes and any iteration order of the
    sets: one batch per size of [range(1, max_words)]. *)
Definition enumerates (max_words : Z) (sizes : list Z)
    (batches : list (list (list Z))) : Prop :=
  sizes ≡ₚ range 1 max_words ∧
  Forall2 (λ size batch, batch ≡ₚ size_combinations size) sizes batches.

(** The same loop for any order of the pool results: a run that ends
    normally prints every accepted combination once, a run stopped by an
    exception printed some of those accepted before it. *)
Definition iterative_run (max_words : Z) (printed : list (list Z))
    (e : result unit) : Prop :=
  ∃ sizes batches,
    enumerates max_words sizes batches ∧
    let '(all_combs, e') := lazy_filter pre_filter (concat batches) in
    e = e' ∧
    let accepted := filter (λ c, truthy (prod_and_filter c)) all_combs in
    match e with
    | Ret _ => printed ≡ₚ accepted
    | _ => printed ⊆+ accepted
    end.

(** [" ".join(map(lambda x: str(dictionary[x]), possibility))]: the word
    groups printed on a line. *)
Definition print_line (possibility : list Z) : result (list (list word)) :=
  mapM (lookup_dict (dictionary g)) possibility.
End iterative.

(** [iterative(args)], pools in order. *)
Definition iterative (pickle : dict) (words : list (list word))
  : result (list (list Z)) :=
  g ← prepare_data pickle words;
  m ← max_words g;
  let '(printed, e) := iterative_in_order g m in
  _ ← e; mret printed.

(** ** Building the dictionary *)

(** [str.isspace] for the characters of a one-byte string. *)
Definition isspace (c : ascii) : bool :=
  let n := nat_of_ascii c in
  ((9 <=? n) && (n <=? 13) || (28 <=? n) && (n <=? 32)
   || (n =? 133) || (n =? 160))%nat.

Fixpoint lstrip (w : word) : word :=
  match w with
  | [] => []
  | c :: w' => if isspace c then lstrip w' else w
  end.

(** [w.strip()] *)
Definition strip (w : word) : word := rev (lstrip (rev (lstrip w))).

(** [str.lower] for the characters of a one-byte string: the ASCII
    capitals and the accented capitals (all of 192 to 222 but the
    multiplication sign). *)
Definition str_lower (c : ascii) : ascii :=
  let n := nat_of_ascii c in
  if ((65 <=? n) && (n <=? 90)
      || (192 <=? n) && (n <=? 222) && negb (n =? 215))%nat
  then ascii_of_nat (n + 32) else c.

Definition newline : ascii := "010".

(** [text.split('\n')]; [cur] holds the current piece, reversed. *)
Fixpoint split_lines (cur : word) (text : word) : list word :=
  match text with
  | [] => [rev cur]
  | c :: text' =>
      if decide (c = newline) then rev cur :: split_lines [] text'
      else split_lines (c :: cur) text'
  end.

(** [infile.readlines()] on a text whose line ends were translated to
    [\n]: each line keeps its end, there is no empty last line. *)
Fixpoint readlines (cur : word) (text : word) : list word :=
  match text with
  | [] => match cur with [] => [] | _ => [rev cur] end
  | c :: text' =>
      if decide (c = newline) then rev (c :: cur) :: readlines [] text'
      else readlines (c :: cur) text'
  end.

(** The short words kept from [scrabble_words.txt]. *)
Definition scrabble_words (scrabble_text : word) : list word :=
  map (λ w, map str_lower (strip w))
    (filter (λ w, (1 < length (strip w))%nat ∧ (length (strip w) < 5)%nat)
       (readlines [] scrabble_text)).

(** The two tests of the loop that end in [continue]. *)
Definition skipped (scrabble : list word) (w : word) : bool :=
  if bool_decide (length w = 1%nat ∧ w ≠ str "a" ∧ w ≠ str "i") then true
  else bool_decide ((1 < length w)%nat ∧ (length w < 5)%nat ∧ w ∉ scrabble).

(** [dictionary[product] = [word]] or [dictionary[product].append(word)] *)
Definition add_word (dictionary : dict) (product : Z) (w : word) : dict :=
  match dictionary !! product with
  | None => <[product := [w]]> dictionary
  | Some ws => <[product := ws ++ [w]]> dictionary
  end.

(** The loop of [create_dict] over the lines of the word file. *)
Fixpoint create_dict_loop (scrabble : list word) (lines : list word)
    (dictionary : dict) : result dict :=
  match lines with
  | [] => Ret dictionary
  | line :: lines' =>
      let w := map str_lower (strip line) in
      if skipped scrabble w then create_dict_loop scrabble lines' dictionary
      else
        product ← word_signature w;
        if negb (product =? 1)
        then create_dict_loop scrabble lines' (add_word dictionary product w)
        else create_dict_loop scrabble lines' dictionary
  end.

(** [create_dict(args)]: [scrabble_text] is the content of
    [scrabble_words.txt], [text] that of the word file [args.f],
    [dictionary] the module-level dictionary, empty when the program
    starts; the result is what is pickled. *)
Definition create_dict (scrabble_text text : word) (dictionary : dict)
  : result dict :=
  create_dict_loop (scrabble_words scrabble_text) (split_lines [] text)
    dictionary.

(** The words of the file that reach [word_signature], in file order. *)
Definition admitted_words (scrabble : list word) (lines : list word)
  : list word :=
  filter (λ w, skipped scrabble w = false)
    (map (λ line, map str_lower (strip line)) lines).

(** A dictionary whose every entry is a non-empty list of words that
    have the entry's key as signature. *)
Definition keyed_by_signature (d : dict) : Prop :=
  ∀ k ws, d !! k = Some ws →
    ws ≠ [] ∧ Forall (λ w, word_signature w = Ret k) ws.

(** The number of combinations of the sizes below [k]. *)
Definition count_combinations {A} (l : list A) (k : nat) : nat :=
  sum_list_with (λ r, length (combinations l r)) (seq 0 k).

#[global] Instance label_eq_dec : EqDecision label.
Proof. solve_decision. Defined.

#[global] Instance keyed_by_signature_dec (d : dict) :
  Decision (keyed_by_signature d).
Proof.
  unfold keyed_by_signature.
  apply (map_Forall_dec
           (λ k ws, ws ≠ [] ∧ Forall (λ w, word_signature w = Ret k) ws)).
Defined.

(** ** Reading a forest *)

(** The signature a node stands for: that of the first word of its
    label. *)
Definition label_signature (l : label) : result Z :=
  match l with
  | Phrase b => word_signature b
  | Words ws => w ← of_option IndexError (head ws); word_signature w
  | WordLists wss =>
      ws ← of_option IndexError (head wss);
      w ← of_option IndexError (head ws);
      word_signature w
  end.

(** The labels met from a node down to each leaf below it. *)
Fixpoint paths (n : Node) : list (list label) :=
  let 'mkNode v cs := n in
  match cs with
  | [] => [[v]]
  | _ => map (cons v) (concat (map paths cs))
  end.

(** [lbl] is the label the factorizers give to the factor [f]. *)
Definition labels (dictionary : dict) (f : Z) (lbl : label) : Prop :=
  ∃ ws, dictionary !! f = Some ws ∧ (lbl = Words ws ∨ lbl = WordLists [ws]).

(** Every root-to-leaf path of the forest is labelled by factors taken
    from [numbers] whose product is [value]. *)
Definition decomposes (dictionary : dict) (numbers : list Z) (value : Z)
    (forest : list Node) : Prop :=
  ∀ path, path ∈ concat (map paths forest) →
    ∃ factors,
      Forall2 (λ f lbl, f ∈ numbers ∧ labels dictionary f lbl) factors path ∧
      prod factors = value.

(** The words a label prints. *)
Definition label_words (l : label) : list word :=
  match l with
  | Phrase b => [b]
  | Words ws => ws
  | WordLists wss => concat wss
  end.

(** The mapping output derived from the tree output: a lone leaf is the
    word list itself, any other forest is the list of its nodes, each a
    one-key dict from its words to what its children give. *)
Fixpoint node_json (n : Node) : list word * json :=
  let 'mkNode v cs := n in
  (label_words v,
   match cs with
   | [mkNode (WordLists [ws]) []] => JWords ws
   | _ => JDicts (map node_json cs)
   end).

Definition to_json (forest : list Node) : json :=
  match forest with
  | [mkNode (WordLists [ws]) []] => JWords ws
  | _ => JDicts (map node_json forest)
  end.

(** A node made for a proper factor. *)
Definition inner_node (n : Node) : Prop :=
  ∃ ws cs, n = mkNode (Words ws) cs.

(** A lone leaf over a non-empty word list, or a list of inner nodes. *)
Definition forest_shape (forest : list Node) : Prop :=
  (∃ ws, ws ≠ [] ∧ forest = [mkNode (WordLists [ws]) []]) ∨
  Forall inner_node forest.

(** The product of the signatures along a path. *)
Definition path_product (path : list label) : result Z :=
  sigs ← mapM label_signature path; mret (prod sigs).

(** ** The factorizer as the specification words it *)

Section spec_factorizer.
Variable dictionary : dict.

(** Section 4.4: every candidate factor [f] is tried in order; [f] equal
    to the value is a leaf; [f] dividing the value gives a node over the
    decompositions of the exact quotient when there are any; the forest
    is all that was found. *)
Fixpoint spec_factor_loop (self : Z → result (list Node)) (value : Z)
    (rest : list Z) : result (list Node) :=
  match rest with
  | [] => Ret []
  | f :: rest' =>
      here ← (if f =? value then
                ws ← lookup_dict dictionary value;
                Ret [mkNode (WordLists [ws]) []]
              else if bool_decide (f ≠ 0 ∧ value mod f = 0) then
                decompositions ← self (value / f);
                match decompositions with
                | [] => Ret []
                | _ => ws ← lookup_dict dictionary f;
                       Ret [mkNode (Words ws) decompositions]
                end
              else Ret []);
      others ← spec_factor_loop self value rest';
      Ret (here ++ others)
  end.

Fixpoint spec_factor (fuel : nat) (value : Z) (factors : list Z)
  : result (list Node) :=
  match fuel with
  | O => OutOfFuel
  | S fuel' =>
      spec_factor_loop (λ q, spec_factor fuel' q factors) value factors
  end.
End spec_factorizer.

(** ** Sample inputs *)

Definition dict_ai : dict :=
  list_to_map [(46, [str "ai"]); (23, [str "i"]); (2, [str "a"])].

Definition dict_listen : dict :=
  list_to_map [(1914801911, [str "listen"; str "silent"; str "enlist";
                             str "tinsel"])].

Definition globals_listen : globals :=
  Globals dict_listen (str "listen") 1914801911 [1914801911].

Definition dict_volunteers : dict :=
  list_to_map [(15141410916094903, [str "volunteers"]); (2, [str "a"])].

(** Two strings of table letters whose signatures are consecutive
    integers above [2^53]. *)
Definition word_lo : word := str "aaaaabbbceeeinqswx".
Definition word_hi : word := str "ddggggggggggmm".
Definition dict_consecutive : dict :=
  list_to_map [(166055401586083680, [word_lo]);
               (166055401586083681, [word_hi])].

(** A word file and a Scrabble list, and the dictionary built from
    them. *)
Definition sample_text : word :=
  str "listen
 Silent 
a
b
ai
zq

listen
".
Definition sample_scrabble : word :=
  str "ai
AB
x
abcde".
Definition sample_dict : dict :=
  list_to_map [(1914801911, [str "listen"; str "silent"; str "listen"]);
               (46, [str "ai"]); (2, [str "a"])].

Definition globals_ai : globals :=
  Globals dict_ai (str "ai") 46 [46; 23; 2].

Definition dict_a_i : dict := list_to_map [(23, [str "i"]); (2, [str "a"])].
Definition globals_a_i : globals :=
  Globals dict_a_i (str "ai") 46 [23; 2].

(** * Properties *)

(** ** Sample evaluations *)

Example word_signature_listen : word_signature (str "listen") = Ret 1914801911.
Proof. vm_compute. reflexivity. Qed.

Example truediv_big : Py.int_truediv 21657134112561602 2 = Ret 10828567056280800.
Proof. vm_compute. reflexivity. Qed.

Example truediv_small : Py.int_truediv 46 2 = Ret 23.
Proof. vm_compute. reflexivity. Qed.

(** The phrase "listen": one combination, the signature shared by its
    four dictionary words. *)
Example iterative_listen :
  iterative dict_listen [[str "listen"]] = Ret [[1914801911]] ∧
  print_line globals_listen [1914801911]
    = Ret [[str "listen"; str "silent"; str "enlist"; str "tinsel"]].
Proof. split; vm_compute; reflexivity. Qed.

(** [round] rounds halves to the even integer: two letters give
    [round(0.5) + 1 = 1], so that no size is tried; ten letters give
    [round(2.5) + 1 = 3]. *)
Example max_words_half :
  max_words (Globals dict_ai (str "ai") 46 [46; 23; 2]) = Ret 1 ∧
  iterative dict_ai [[str "ai"]] = Ret [] ∧
  max_words (Globals ∅ (str "volunteers") 15141410916094903 []) = Ret 3.
Proof. split; [| split]; vm_compute; reflexivity. Qed.

(** ** The monad of outcomes *)

Lemma bind_Ret {A B} (m : result A) (f : A → result B) (b : B) :
  m ≫= f = Ret b → ∃ a, m = Ret a ∧ f a = Ret b.
Proof. destruct m; simpl; intros H; try discriminate. eauto. Qed.

Lemma mapM_Ret {A B} (f : A → result B) (l : list A) (k : list B) :
  mapM f l = Ret k ↔ Forall2 (λ x y, f x = Ret y) l k.
Proof.
  revert k. induction l as [|x l IH]; intros k; simpl.
  - split.
    + intros [= <-]. constructor.
    + intros H. inversion H. reflexivity.
  - split.
    + intros H. apply bind_Ret in H as (y & Hy & H).
      apply bind_Ret in H as (k' & Hk' & [= <-]).
      constructor; [done | by apply IH].
    + intros H. inversion H as [|? y ? k' Hy Hk']; subst.
      apply IH in Hk'. rewrite Hy. simpl. rewrite Hk'. reflexivity.
Qed.

(** ** True division *)

Module PyFacts.
Import Py.

Lemma round_half_even_lower a b : a / b ≤ round_half_even a b.
Proof.
  unfold round_half_even.
  destruct (2 * (a mod b) ?= b); [destruct (Z.even (a / b)) | |]; lia.
Qed.

Lemma round_half_even_upper a b : round_half_even a b ≤ a / b + 1.
Proof.
  unfold round_half_even.
  destruct (2 * (a mod b) ?= b); [destruct (Z.even (a / b)) | |]; lia.
Qed.

Lemma round_half_even_exact a b :
  0 < b → a mod b = 0 → round_half_even a b = a / b.
Proof.
  intros Hb Hmod. unfold round_half_even. rewrite Hmod.
  destruct (Z.compare_spec (2 * 0) b); lia.
Qed.

(** [quot_log2] does not overshoot: [2^e <= n/d]. *)
Lemma quot_log2_lower n d :
  0 < n → 0 < d → 0 ≤ quot_log2 n d → d * 2 ^ quot_log2 n d ≤ n.
Proof.
  intros Hn Hd. unfold quot_log2, quot_ge_pow2.
  set (e0 := Z.log2 n - Z.log2 d).
  destruct (0 <=? e0) eqn:He0.
  - apply Z.leb_le in He0.
    destruct (d * 2 ^ e0 <=? n) eqn:Hle; [apply Z.leb_le in Hle; lia |].
    intros He.
    pose proof (Z.log2_spec n Hn) as [Hn1 _].
    pose proof (Z.log2_spec d Hd) as [_ Hd2].
    pose proof (Z.log2_nonneg d) as Hld.
    assert (Hpow : 2 ^ Z.succ (Z.log2 d) * 2 ^ (e0 - 1) = 2 ^ Z.log2 n).
    { rewrite <- Z.pow_add_r by lia. f_equal. unfold e0. lia. }
    assert (0 < 2 ^ (e0 - 1)) by (apply Z.pow_pos_nonneg; lia).
    nia.
  - apply Z.leb_gt in He0.
    destruct (d <=? n * 2 ^ (- e0)); lia.
Qed.

Lemma truediv_pos a b :
  0 < a → 0 < b →
  truediv a b =
    let x := Z.max (quot_log2 a b - 52) (-1074) in
    let m := if 0 <=? x then round_half_even a (b * 2 ^ x)
             else round_half_even (a * 2 ^ (- x)) b in
    if 2 ^ 1024 <=? m * 2 ^ x then Raise OverflowError
    else Ret (Float m x).
Proof.
  intros Ha Hb. unfold truediv.
  destruct (Z.eqb_spec b 0); [lia |].
  destruct (Z.eqb_spec a 0); [lia |].
  rewrite !Z.abs_eq by lia. rewrite !Z.sgn_pos by lia.
  cbv zeta. rewrite !Z.mul_1_l. reflexivity.
Qed.

(** The result of [truediv] is a value or an exception. *)
Lemma truediv_fuel a b : truediv a b ≠ OutOfFuel.
Proof.
  unfold truediv.
  repeat match goal with |- context [if ?c then _ else _] => destruct c end;
    discriminate.
Qed.

Lemma int_truediv_fuel a b : int_truediv a b ≠ OutOfFuel.
Proof.
  unfold int_truediv. pose proof (truediv_fuel a b) as H.
  destruct (truediv a b); cbn; [discriminate | discriminate | done].
Qed.

(** What [int(a/b)] is when [b] divides [a]: the quotient itself below
    [2^53], and above it the quotient rounded to 53 bits, which is still
    positive and less than twice the quotient. *)
Lemma int_truediv_divisible a b q :
  0 < a → 0 < b → a mod b = 0 → int_truediv a b = Ret q →
  (a / b < 2 ^ 53 → q = a / b) ∧ 0 < q < 2 * (a / b).
Proof.
  intros Ha Hb Hmod. unfold int_truediv. rewrite truediv_pos by done.
  cbv zeta.
  set (e := quot_log2 a b). set (x := Z.max (e - 52) (-1074)).
  set (m := if 0 <=? x then _ else _).
  destruct (2 ^ 1024 <=? m * 2 ^ x); [discriminate |].
  cbn. intros [= <-]. unfold int. cbn [mant expo].
  assert (HQ : a = b * (a / b)) by (apply Z_div_exact_full_2; lia).
  set (Q := a / b) in *.
  assert (0 < Q) by nia.
  subst m. destruct (0 <=? x) eqn:Hx.
  - apply Z.leb_le in Hx.
    assert (Hxe : x = e - 52) by lia.
    assert (He : 0 ≤ e) by lia.
    pose proof (quot_log2_lower a b Ha Hb He) as Hlow. fold e in Hlow.
    assert (Hpe : 2 ^ e = 2 ^ x * 2 ^ 52).
    { rewrite <- Z.pow_add_r by lia. f_equal. lia. }
    assert (HP : 0 < 2 ^ x) by (apply Z.pow_pos_nonneg; lia).
    set (P := 2 ^ x) in *.
    assert (H52 : 2 ^ 52 = 4503599627370496) by reflexivity.
    assert (H53 : 2 ^ 53 = 9007199254740992) by reflexivity.
    rewrite H52 in Hpe.
    assert (HPQ : P * 4503599627370496 ≤ Q) by nia.
    assert (Hdiv : a / (b * P) = Q / P).
    { rewrite <- Z.div_div by lia. reflexivity. }
    pose proof (round_half_even_lower a (b * P)) as Hl.
    pose proof (round_half_even_upper a (b * P)) as Hu.
    rewrite Hdiv in Hl, Hu.
    pose proof (Z.mul_div_le Q P HP) as Hfl.
    assert (4503599627370496 ≤ Q / P) by (apply Z.div_le_lower_bound; lia).
    set (M := round_half_even a (b * P)) in *.
    split.
    + intros Hsmall. rewrite H53 in Hsmall.
      assert (Hx0 : x = 0).
      { destruct (Z.eq_dec x 0) as [|Hne]; [done | exfalso].
        assert (2 ^ 1 ≤ P) by (apply Z.pow_le_mono_r; lia).
        change (2 ^ 1) with 2 in *. nia. }
      subst M P. rewrite Hx0. change (2 ^ 0) with 1. rewrite !Z.mul_1_r.
      apply round_half_even_exact; done.
    + nia.
  - apply Z.leb_gt in Hx.
    assert (HP : 0 < 2 ^ (- x)) by (apply Z.pow_pos_nonneg; lia).
    set (P := 2 ^ (- x)) in *.
    assert (Hm : (a * P) mod b = 0).
    { rewrite HQ. rewrite <- Z.mul_assoc, Z.mul_comm. apply Z_mod_mult. }
    rewrite round_half_even_exact by done.
    assert (Hd : a * P / b = Q * P).
    { rewrite HQ at 1. rewrite <- Z.mul_assoc, Z.mul_comm.
      apply Z_div_mult. lia. }
    rewrite Hd. rewrite Z.quot_mul by lia. split; [done | lia].
Qed.

(** [int(a/b)] is smaller than [a] for a divisor [b] of at least 2. *)
Lemma int_truediv_decreases a b q :
  0 < a → 2 ≤ b → a mod b = 0 → int_truediv a b = Ret q → 0 < q < a.
Proof.
  intros Ha Hb Hmod Hq.
  destruct (int_truediv_divisible a b q) as [_ Hbound]; try done; try lia.
  assert (HQ : a = b * (a / b)) by (apply Z_div_exact_full_2; lia).
  nia.
Qed.

(** Below [2^53] the quotient by a divisor is exact. *)
Lemma int_truediv_exact a b :
  0 < a → 0 < b → a mod b = 0 → a / b < 2 ^ 53 →
  int_truediv a b = Ret (a / b).
Proof.
  intros Ha Hb Hmod Hs.
  destruct (int_truediv a b) as [q | e |] eqn:Hq.
  - destruct (int_truediv_divisible a b q) as [He _]; try done.
    by rewrite (He Hs).
  - exfalso. revert Hq. unfold int_truediv. rewrite truediv_pos by done.
    cbv zeta.
    set (x := Z.max (quot_log2 a b - 52) (-1074)).
    set (m := if 0 <=? x then _ else _).
    destruct (2 ^ 1024 <=? m * 2 ^ x) eqn:Hov; [| discriminate].
    intros _. apply Z.leb_le in Hov.
    assert (HQ : a = b * (a / b)) by (apply Z_div_exact_full_2; lia).
    assert (H53 : 2 ^ 53 = 9007199254740992) by reflexivity.
    rewrite H53 in Hs.
    assert (Hbig : 9007199254740992 < 2 ^ 1024) by reflexivity.
    destruct (0 <=? x) eqn:Hx.
    + apply Z.leb_le in Hx.
      assert (He : 0 ≤ quot_log2 a b) by lia.
      pose proof (quot_log2_lower a b Ha Hb He) as Hlow.
      assert (Hpe : 2 ^ quot_log2 a b = 2 ^ x * 2 ^ 52).
      { rewrite <- Z.pow_add_r by lia. f_equal. lia. }
      assert (HP : 0 < 2 ^ x) by (apply Z.pow_pos_nonneg; lia).
      set (P := 2 ^ x) in *.
      assert (H52 : 2 ^ 52 = 4503599627370496) by reflexivity.
      rewrite H52 in Hpe.
      assert (Hdiv : a / (b * P) = a / b / P).
      { rewrite <- Z.div_div by lia. reflexivity. }
      pose proof (round_half_even_upper a (b * P)) as Hu.
      rewrite Hdiv in Hu.
      pose proof (Z.mul_div_le (a / b) P HP) as Hfl.
      subst m. set (M := round_half_even a (b * P)) in *.
      assert (M * P ≤ a / b + P) by nia.
      assert (P * 4503599627370496 ≤ a / b) by nia.
      lia.
    + apply Z.leb_gt in Hx. rewrite (Z.pow_neg_r 2 x) in Hov by lia. lia.
  - by apply int_truediv_fuel in Hq.
Qed.


(** Below [2^53] the float test [a/b == 1] decides [a = b]. *)
Lemma truediv_eq_1 (a b : Z) :
  0 < a < 2 ^ 53 → 0 < b < 2 ^ 53 →
  ∃ f, truediv a b = Ret f ∧ eqb_int f 1 = (a =? b).
Proof.
  intros [Ha Ha53] [Hb Hb53].
  assert (H52 : 2 ^ 52 = 4503599627370496) by reflexivity.
  assert (H53 : 2 ^ 53 = 9007199254740992) by reflexivity.
  rewrite truediv_pos by done. cbv zeta.
  set (e := quot_log2 a b).
  assert (He_hi : e ≤ 52).
  { destruct (Z_le_gt_dec e 52) as [|Hgt]; [done | exfalso].
    pose proof (quot_log2_lower a b Ha Hb ltac:(fold e; lia)) as Hlow.
    fold e in Hlow.
    assert (2 ^ 53 ≤ 2 ^ e) by (apply Z.pow_le_mono_r; lia). nia. }
  assert (He_lo : -54 ≤ e).
  { pose proof (Z.log2_nonneg a).
    assert (Z.log2 b < 53) by (apply Z.log2_lt_pow2; lia).
    unfold e, quot_log2. destruct (quot_ge_pow2 _ _ _); lia. }
  assert (Hx : Z.max (e - 52) (-1074) = e - 52) by lia.
  rewrite Hx. remember (e - 52) as x eqn:Hxdef.
  set (m := if 0 <=? x then _ else _).
  assert (Hm : (2 ^ 1024 <=? m * 2 ^ x) = false ∧
               eqb_int (Float m x) 1 = (a =? b)).
  { unfold eqb_int. cbn [mant expo]. subst m.
    destruct (0 <=? x) eqn:Hx0.
    - apply Z.leb_le in Hx0. assert (x = 0) as -> by lia.
      change (2 ^ 0) with 1. rewrite !Z.mul_1_r.
      pose proof (quot_log2_lower a b Ha Hb ltac:(fold e; lia)) as Hlow.
      fold e in Hlow. assert (e = 52) as Hee by lia.
      rewrite Hee, H52 in Hlow.
      pose proof (round_half_even_lower a b) as Hl.
      pose proof (round_half_even_upper a b) as Hu.
      assert (4503599627370496 ≤ a / b) by (apply Z.div_le_lower_bound; lia).
      assert (a / b ≤ a) by (apply Z.div_le_upper_bound; nia).
      assert (Hbig : 9007199254740993 < 2 ^ 1024) by reflexivity.
      split; [apply Z.leb_gt; lia |].
      destruct (Z.eqb_spec (round_half_even a b) 1); [lia |].
      destruct (Z.eqb_spec a b); [nia | done].
    - apply Z.leb_gt in Hx0. rewrite (Z.pow_neg_r 2 x) by lia.
      rewrite Z.mul_0_r, Z.mul_1_l. split; [reflexivity |].
      assert (HP : 0 < 2 ^ (- x)) by (apply Z.pow_pos_nonneg; lia).
      destruct (Z.eqb_spec a b) as [-> | Hne].
      + rewrite round_half_even_exact; [| done | ].
        * rewrite Z.mul_comm, Z_div_mult by lia. apply Z.eqb_refl.
        * rewrite Z.mul_comm. apply Z_mod_mult.
      + apply Z.eqb_neq.
        destruct (Z_le_gt_dec 1 e) as [He1 | He0].
        * pose proof (quot_log2_lower a b Ha Hb ltac:(fold e; lia)) as Hlow.
          fold e in Hlow.
          assert (2 ^ 1 ≤ 2 ^ e) by (apply Z.pow_le_mono_r; lia).
          change (2 ^ 1) with 2 in *.
          pose proof (round_half_even_lower (a * 2 ^ (- x)) b) as Hl.
          assert (2 * 2 ^ (- x) ≤ a * 2 ^ (- x) / b)
            by (apply Z.div_le_lower_bound; nia).
          lia.
        * assert (HPbig : 2 ^ 52 ≤ 2 ^ (- x))
            by (apply Z.pow_le_mono_r; lia).
          rewrite H52 in HPbig. rewrite H53 in *.
          set (P := 2 ^ (- x)) in *.
          unfold round_half_even.
          pose proof (Z.div_mod (a * P) b ltac:(lia)) as Hdm.
          pose proof (Z.mod_pos_bound (a * P) b Hb) as Hr.
          set (fl := a * P / b) in *. set (r := (a * P) mod b) in *.
          destruct (Z.compare_spec (2 * r) b) as [Hc | Hc | Hc];
            [destruct (Z.even fl) | |]; nia. }
  destruct Hm as [-> Heqb]. eexists. split; [reflexivity | exact Heqb].
Qed.

End PyFacts.

(** ** Letter encoder: signatures and letter multisets *)

Lemma fold_left_mul (l : list Z) (a : Z) :
  fold_left Z.mul l a = a * fold_left Z.mul l 1.
Proof.
  revert a. induction l as [|x l IH]; intros a; simpl; [lia |].
  rewrite (IH (a * x)), (IH (1 * x)). lia.
Qed.

Lemma prod_cons (x : Z) (l : list Z) : prod (x :: l) = x * prod l.
Proof. unfold prod. simpl. rewrite fold_left_mul. lia. Qed.

Lemma word_signature_nil : word_signature [] = Ret 1.
Proof. reflexivity. Qed.

Lemma word_signature_cons (x : ascii) (w : word) :
  word_signature (x :: w) =
    p ← of_option KeyError (primes !! x); s ← word_signature w; mret (p * s).
Proof.
  unfold word_signature, letter_primes. cbn.
  destruct (primes !! x) as [p|]; cbn; [| reflexivity].
  destruct (mapM _ w) as [ps | |]; cbn; [| reflexivity ..].
  unfold mret, result_ret. by rewrite prod_cons.
Qed.

Lemma primes_lookup (c : ascii) (p : Z) :
  primes !! c = Some p → (c, p) ∈ primes_table.
Proof. apply elem_of_list_to_map_2. Qed.

(** Every number of the table is at least 2 and two numbers of distinct
    letters have no common divisor. *)
Lemma primes_table_coprime :
  Forall (λ cp, 2 ≤ cp.2 ∧
            Forall (λ dq, cp.1 = dq.1 ∨ Z.gcd cp.2 dq.2 = 1) primes_table)
    primes_table.
Proof. refine (bool_decide_unpack _ _). vm_compute. exact I. Qed.

Lemma primes_ge_2 (c : ascii) (p : Z) : primes !! c = Some p → 2 ≤ p.
Proof.
  intros H%primes_lookup.
  pose proof primes_table_coprime as Hall.
  rewrite Forall_forall in Hall. by destruct (Hall _ H).
Qed.

Lemma primes_coprime (c d : ascii) (p q : Z) :
  primes !! c = Some p → primes !! d = Some q → c ≠ d → Z.gcd p q = 1.
Proof.
  intros Hc%primes_lookup Hd%primes_lookup Hne.
  pose proof primes_table_coprime as Hall.
  rewrite Forall_forall in Hall. destruct (Hall _ Hc) as [_ Hrow].
  rewrite Forall_forall in Hrow. destruct (Hrow _ Hd) as [? | ?]; done.
Qed.

Lemma word_signature_table (w : word) :
  Forall table_letter w → ∃ s, word_signature w = Ret s ∧ 1 ≤ s.
Proof.
  induction 1 as [|x w [p Hp] _ (s & Hs & Hge)].
  - exists 1. done.
  - exists (p * s). rewrite word_signature_cons, Hp, Hs. cbn.
    pose proof (primes_ge_2 _ _ Hp). split; [done | nia].
Qed.

Lemma word_signature_Ret (w : word) (s : Z) :
  word_signature w = Ret s → Forall table_letter w.
Proof.
  revert s. induction w as [|x w IH]; intros s; [constructor |].
  rewrite word_signature_cons.
  destruct (primes !! x) as [p|] eqn:Hp; cbn; [| discriminate].
  destruct (word_signature w) as [s' | |]; cbn; [| discriminate ..].
  intros _. constructor; [by exists p | by eapply IH].
Qed.

(** Reordering the letters does not change what [word_signature]
    returns, a signature or the [KeyError] of a foreign letter. *)
Lemma word_signature_Permutation (w1 w2 : word) :
  w1 ≡ₚ w2 → word_signature w1 = word_signature w2.
Proof.
  induction 1 as [| x w1 w2 _ IH | x y w | w1 w2 w3 _ IH1 _ IH2].
  - reflexivity.
  - rewrite !word_signature_cons, IH. reflexivity.
  - rewrite !word_signature_cons.
    destruct (primes !! x) as [p|], (primes !! y) as [q|]; cbn;
      try reflexivity;
      destruct (word_signature w) as [s | |]; cbn; try reflexivity.
    unfold mret, result_ret. f_equal. lia.
  - congruence.
Qed.

(** A table number that divides a signature is the number of one of the
    word's letters. *)
Lemma prime_divides_signature (c : ascii) (p : Z) (w : word) (s : Z) :
  primes !! c = Some p → word_signature w = Ret s → (p | s) → c ∈ w.
Proof.
  intros Hc. revert s. induction w as [|x w IH]; intros s.
  - intros [= <-] Hdiv. apply Z.divide_1_r_nonneg in Hdiv.
    + pose proof (primes_ge_2 _ _ Hc). lia.
    + pose proof (primes_ge_2 _ _ Hc). lia.
  - rewrite word_signature_cons.
    destruct (primes !! x) as [q|] eqn:Hx; cbn; [| discriminate].
    destruct (word_signature w) as [s' | |] eqn:Hw; cbn; [| discriminate ..].
    intros [= <-] Hdiv.
    destruct (decide (c = x)) as [-> | Hne]; [left |].
    right. apply (IH s'); [done |].
    apply Z.gauss with q; [done |].
    by apply (primes_coprime c x).
Qed.

Lemma signature_injective (w1 w2 : word) (s : Z) :
  word_signature w1 = Ret s → word_signature w2 = Ret s → w1 ≡ₚ w2.
Proof.
  revert w2 s. induction w1 as [|c w1 IH]; intros w2 s.
  - intros [= <-] H2. destruct w2 as [|y w2]; [done | exfalso].
    rewrite word_signature_cons in H2.
    destruct (primes !! y) as [q|] eqn:Hy; cbn in H2; [| discriminate].
    destruct (word_signature w2) as [s' | |] eqn:Hw; cbn in H2;
      [| discriminate ..].
    injection H2 as H2.
    destruct (word_signature_table w2) as (s2 & Hs2 & Hge);
      [by eapply word_signature_Ret |].
    pose proof (primes_ge_2 _ _ Hy). assert (s2 = s') by congruence.
    change (prod []) with 1 in H2. nia.
  - rewrite word_signature_cons.
    destruct (primes !! c) as [p|] eqn:Hc; cbn; [| discriminate].
    destruct (word_signature w1) as [s1 | |] eqn:Hw1; cbn; [| discriminate ..].
    intros [= <-] H2.
    assert (Hin : c ∈ w2).
    { apply (prime_divides_signature c p w2 (p * s1)); [done .. |].
      by exists s1; lia. }
    apply elem_of_Permutation in Hin as [w2' Hperm].
    rewrite (word_signature_Permutation _ _ Hperm) in H2.
    rewrite word_signature_cons, Hc in H2. cbn in H2.
    destruct (word_signature w2') as [s2 | |] eqn:Hw2; cbn in H2;
      [| discriminate ..].
    injection H2 as H2. pose proof (primes_ge_2 _ _ Hc).
    assert (s2 = s1) by nia. subst s2.
    rewrite Hperm. constructor. by apply (IH w2' s1).
Qed.

(** C1. Two words made of table letters have the same signature exactly
    when they hold the same letters with the same multiplicities, that
    is when one is a permutation of the other. *)
Theorem signature_eq_iff_same_multiset (w1 w2 : word) :
  Forall table_letter w1 → Forall table_letter w2 →
  word_signature w1 = word_signature w2 ↔ w1 ≡ₚ w2.
Proof.
  intros H1 H2. split; [| apply word_signature_Permutation].
  destruct (word_signature_table w1 H1) as (s & Hs & _).
  intros Heq. apply (signature_injective w1 w2 s); congruence.
Qed.

(** C8. For a word of table letters and any permutation of it,
    [word_signature] returns the same signature. *)
Theorem word_signature_permutation_invariant (w1 w2 : word) :
  Forall table_letter w1 → w1 ≡ₚ w2 →
  ∃ s, word_signature w1 = Ret s ∧ word_signature w2 = Ret s.
Proof.
  intros H1 Hperm. destruct (word_signature_table w1 H1) as (s & Hs & _).
  exists s. split; [done |].
  by rewrite <- (word_signature_Permutation _ _ Hperm).
Qed.

(** ** Sub-signatures and the iterative search *)

Lemma elem_of_range (lo hi k : Z) : k ∈ range lo hi ↔ lo ≤ k < hi.
Proof.
  unfold range. rewrite list_elem_of_In, in_map_iff. split.
  - intros (i & <- & Hi%in_seq). lia.
  - intros Hk. exists (Z.to_nat (k - lo)). split; [lia |].
    apply in_seq. lia.
Qed.

(** [combinations l r] lists the subsequences of [l] of length [r]. *)
Lemma elem_of_combinations {A} (l : list A) (r : nat) (c : list A) :
  c ∈ combinations l r ↔ c `sublist_of` l ∧ length c = r.
Proof.
  revert r c. induction l as [|x l IH]; intros [|r] c; simpl.
  - rewrite list_elem_of_singleton. split.
    + intros ->. split; [constructor | done].
    + intros [_ Hlen]. by destruct c.
  - split; [by intros ?%elem_of_nil |].
    intros [Hsub%sublist_nil_r Hlen]. by subst.
  - rewrite list_elem_of_singleton. split.
    + intros ->. split; [apply sublist_nil_l | done].
    + intros [_ Hlen]. by destruct c.
  - rewrite elem_of_app, sublist_cons_r, (IH (S r) c).
    rewrite list_elem_of_In, in_map_iff. split.
    + intros [(c' & <- & Hc'%list_elem_of_In%IH) | [Hsub Hlen]].
      * destruct Hc' as [Hsub Hlen]. split; [right; eauto | simpl; lia].
      * split; [by left | done].
    + intros [[Hsub | (c' & -> & Hsub)] Hlen].
      * right. done.
      * left. exists c'. split; [done |]. apply list_elem_of_In, IH.
        split; [done | simpl in Hlen; lia].
Qed.

Lemma sub_word_signatures_Ret (d : dict) (w : word) (l : list Z) :
  sub_word_signatures d w = Ret l → NoDup l ∧ ∀ k, k ∈ l → k ∈ dom d.
Proof.
  unfold sub_word_signatures.
  intros (word_perms & _ & [= <-])%bind_Ret.
  unfold sorted_reverse. split.
  - rewrite merge_sort_Permutation. apply NoDup_filter, NoDup_remove_dups.
  - intros k. rewrite merge_sort_Permutation, list_elem_of_filter. tauto.
Qed.

Lemma prepare_data_Ret (pickle : dict) (word : list (list word)) (g : globals) :
  prepare_data pickle word = Ret g →
  ∃ words, head word = Some words ∧
    base g = map lower (concat words) ∧
    dictionary g = pickle ∧
    word_signature (base g) = Ret (base_signature g) ∧
    sub_word_signatures pickle (base g) = Ret (perms g).
Proof.
  unfold prepare_data. intros (words & Hw & H)%bind_Ret.
  apply bind_Ret in H as (s & Hs & H).
  apply bind_Ret in H as (l & Hl & [= <-]).
  exists words. destruct (head word); [| discriminate].
  injection Hw as ->. done.
Qed.

Lemma Forall2_elem_of_r {A B} (P : A → B → Prop) l k y :
  Forall2 P l k → y ∈ k → ∃ x, x ∈ l ∧ P x y.
Proof.
  induction 1 as [|x y' l k Hxy _ IH]; [by intros ?%elem_of_nil |].
  intros [-> | Hin]%elem_of_cons.
  - exists x. split; [left | done].
  - destruct (IH Hin) as (x' & ? & ?). exists x'. split; [by right | done].
Qed.

Lemma Forall2_elem_of_l {A B} (P : A → B → Prop) l k x :
  Forall2 P l k → x ∈ l → ∃ y, y ∈ k ∧ P x y.
Proof.
  induction 1 as [|x' y l k Hxy _ IH]; [by intros ?%elem_of_nil |].
  intros [-> | Hin]%elem_of_cons.
  - exists y. split; [left | done].
  - destruct (IH Hin) as (y' & ? & ?). exists y'. split; [by right | done].
Qed.

Section iterative_facts.
Variable g : globals.

(** What a lazy filter lets through passed the test. *)
Lemma lazy_filter_elem_of {A} (p : A → result bool) (xs : list A) (x : A) :
  x ∈ (lazy_filter p xs).1 → x ∈ xs ∧ p x = Ret true.
Proof.
  induction xs as [|y xs IH]; simpl; [by intros ?%elem_of_nil |].
  destruct (p y) as [b | |] eqn:Hy; simpl; try by intros ?%elem_of_nil.
  destruct (lazy_filter p xs) as [ys e]. simpl in *.
  destruct b.
  - intros [-> | Hin]%elem_of_cons; [split; [left | done] |].
    destruct (IH Hin). split; [by right | done].
  - intros Hin. destruct (IH Hin). split; [by right | done].
Qed.

(** Without exception a lazy filter lets through all that pass. *)
Lemma lazy_filter_complete {A} (p : A → result bool) (xs : list A) (x : A) :
  (lazy_filter p xs).2 = Ret () → x ∈ xs → p x = Ret true →
  x ∈ (lazy_filter p xs).1.
Proof.
  induction xs as [|y xs IH]; simpl; [by intros _ ?%elem_of_nil |].
  destruct (p y) as [b | |] eqn:Hy; simpl; try discriminate.
  destruct (lazy_filter p xs) as [ys e]. simpl in *.
  intros He [-> | Hin]%elem_of_cons Hx.
  - rewrite Hx in Hy. injection Hy as <-. left.
  - destruct b; [right |]; by apply IH.
Qed.

Lemma pre_filter_true (combs : list Z) :
  pre_filter g combs = Ret true →
  letter_count g combs = Ret (Z.of_nat (length (base g))).
Proof.
  unfold pre_filter. intros (n & Hn & [= Heq])%bind_Ret.
  apply Z.eqb_eq in Heq. by subst.
Qed.

Lemma truthy_prod_and_filter (c : list Z) :
  truthy (prod_and_filter g c) → prod c = base_signature g ∧ c ≠ [].
Proof.
  unfold prod_and_filter.
  destruct (Z.eqb_spec (prod c) (base_signature g)); simpl; [| done].
  destruct c; [done |]. done.
Qed.

(** What a run prints was enumerated and passed both filters. *)
Lemma iterative_run_printed (m : Z) (printed : list (list Z))
    (e : result unit) (c : list Z) :
  iterative_run g m printed e → c ∈ printed →
  ∃ sizes batches, enumerates g m sizes batches ∧ c ∈ concat batches ∧
    pre_filter g c = Ret true ∧ truthy (prod_and_filter g c).
Proof.
  intros (sizes & batches & Henum & Hrun) Hc.
  exists sizes, batches. split; [done |].
  pose proof (lazy_filter_elem_of (pre_filter g) (concat batches) c) as Hlf.
  destruct (lazy_filter (pre_filter g) (concat batches)) as [all_combs e'].
  destruct Hrun as [-> Hprinted]. simpl in *.
  assert (Hin : c ∈ filter (λ c, truthy (prod_and_filter g c)) all_combs).
  { destruct e'.
    - by rewrite <- Hprinted.
    - by eapply elem_of_submseteq.
    - by eapply elem_of_submseteq. }
  apply list_elem_of_filter in Hin as [Htruthy Hin].
  destruct (Hlf Hin). done.
Qed.

(** The in-order loop is one of the runs. *)
Lemma iterative_in_order_run (m : Z) :
  iterative_run g m (iterative_in_order g m).1 (iterative_in_order g m).2.
Proof.
  exists (range 1 m), (map (size_combinations g) (range 1 m)).
  split.
  - split; [done |]. induction (range 1 m); constructor; done.
  - unfold iterative_in_order.
    destruct (lazy_filter _ _) as [all_combs e]. simpl.
    split; [done |]. by destruct e.
Qed.

(** The combinations enumerated are the subsequences of [perms] of the
    sizes asked for. *)
Lemma enumerates_elem_of (m : Z) sizes batches (c : list Z) :
  enumerates g m sizes batches →
  c ∈ concat batches ↔
    1 ≤ Z.of_nat (length c) ≤ m - 1 ∧ c `sublist_of` perms g.
Proof.
  intros [Hsizes Hbatches].
  rewrite list_elem_of_In, in_concat. split.
  - intros (b & Hb%list_elem_of_In & Hc%list_elem_of_In).
    destruct (Forall2_elem_of_r _ _ _ _ Hbatches Hb) as (size & Hsize & Hperm).
    rewrite Hsizes in Hsize. apply elem_of_range in Hsize.
    rewrite Hperm in Hc. unfold size_combinations in Hc.
    apply elem_of_remove_dups, elem_of_combinations in Hc as [Hsub Hlen].
    split; [lia | done].
  - intros [Hlen Hsub].
    assert (Hsize : Z.of_nat (length c) ∈ sizes).
    { rewrite Hsizes. apply elem_of_range. lia. }
    destruct (Forall2_elem_of_l _ _ _ _ Hbatches Hsize) as (b & Hb & Hperm).
    exists b. split; [by apply list_elem_of_In |].
    apply list_elem_of_In. rewrite Hperm. unfold size_combinations.
    apply elem_of_remove_dups, elem_of_combinations.
    split; [done | lia].
Qed.
End iterative_facts.


(** C2. Whatever the order in which the worker pool returns its results,
    every combination the iterative search prints has a letter count
    (the length of the first word of each signature, summed) equal to
    the length of the phrase and a product equal to the signature of
    the phrase. *)
Theorem iterative_prints_only_matches (pickle : dict)
    (words : list (list word)) (g : globals) (m : Z)
    (printed : list (list Z)) (e : result unit) (c : list Z) :
  prepare_data pickle words = Ret g →
  max_words g = Ret m →
  iterative_run g m printed e →
  c ∈ printed →
  letter_count g c = Ret (Z.of_nat (length (base g))) ∧
  prod c = base_signature g ∧
  word_signature (base g) = Ret (base_signature g).
Proof.
  intros Hg _ Hrun Hc.
  destruct (iterative_run_printed g m printed e c Hrun Hc)
    as (sizes & batches & _ & _ & Hpre & Hprod).
  apply pre_filter_true in Hpre.
  apply truthy_prod_and_filter in Hprod as [Hprod _].
  apply prepare_data_Ret in Hg as (ws & _ & _ & _ & Hsig & _).
  done.
Qed.


(** ** Termination of the recursive factorizer *)

Section termination.
Variable d : dict.

Lemma factor_to_tree_loop_ext (self1 self2 : Z → result (list Node))
    (value : Z) (rest : list Z) (acc : list Node) :
  0 < value → Forall (λ n, 2 ≤ n) rest →
  (∀ q, 0 < q < value → self1 q = self2 q ∧ self1 q ≠ OutOfFuel) →
  factor_to_tree_loop d self1 value rest acc =
    factor_to_tree_loop d self2 value rest acc ∧
  factor_to_tree_loop d self1 value rest acc ≠ OutOfFuel.
Proof.
  intros Hv Hrest Hself. revert acc.
  induction Hrest as [|number rest Hn _ IH]; intros acc; simpl; [done |].
  destruct (value =? number) eqn:Heq; simpl.
  - unfold lookup_dict. destruct (d !! value); cbn; done.
  - unfold Py.mod_. destruct (Z.eqb_spec number 0) as [| _]; [lia |]. cbn.
    destruct (Z.eqb_spec (value mod number) 0) as [Hmod | _]; [| apply IH].
    pose proof (PyFacts.int_truediv_fuel value number) as Hfuel.
    destruct (Py.int_truediv value number) as [q | |] eqn:Hq; cbn; [| done ..].
    apply PyFacts.int_truediv_decreases in Hq; [| done ..].
    destruct (Hself q Hq) as [<- Hne].
    destruct (self1 q) as [factored | |]; cbn; [| done ..].
    destruct (length factored); [apply IH |].
    unfold lookup_dict. destruct (d !! number); cbn; [apply IH | done].
Qed.

Lemma factor_loop_ext (self1 self2 : Z → result json)
    (value : Z) (rest : list Z) (acc : list (list word * json)) :
  0 < value → Forall (λ n, 2 ≤ n) rest →
  (∀ q, 0 < q < value → self1 q = self2 q ∧ self1 q ≠ OutOfFuel) →
  factor_loop d self1 value rest acc = factor_loop d self2 value rest acc ∧
  factor_loop d self1 value rest acc ≠ OutOfFuel.
Proof.
  intros Hv Hrest Hself. revert acc.
  induction Hrest as [|number rest Hn _ IH]; intros acc; simpl; [done |].
  unfold Py.mod_. destruct (Z.eqb_spec number 0) as [| _]; [lia |]. cbn.
  assert (Helse : ∀ k1 k2 : result json,
    k1 = k2 ∧ k1 ≠ OutOfFuel →
    (f ← Py.truediv value number;
     if Py.eqb_int f 1 then ws ← lookup_dict d value; Ret (JWords ws)
     else k1) =
    (f ← Py.truediv value number;
     if Py.eqb_int f 1 then ws ← lookup_dict d value; Ret (JWords ws)
     else k2) ∧
    (f ← Py.truediv value number;
     if Py.eqb_int f 1 then ws ← lookup_dict d value; Ret (JWords ws)
     else k1) ≠ OutOfFuel).
  { intros k1 k2 [<- Hk].
    pose proof (PyFacts.truediv_fuel value number) as Hfuel.
    destruct (Py.truediv value number) as [f | |]; cbn; [| done ..].
    destruct (Py.eqb_int f 1); [| done].
    unfold lookup_dict. destruct (d !! value); cbn; done. }
  destruct (Z.eqb_spec (value mod number) 0) as [Hmod | _]; cbn;
    [| apply Helse, IH].
  pose proof (PyFacts.int_truediv_fuel value number) as Hfuel.
  destruct (Py.int_truediv value number) as [q | |] eqn:Hq; cbn; [| done ..].
  destruct (negb (q =? 1)); cbn; [| apply Helse, IH].
  apply PyFacts.int_truediv_decreases in Hq; [| done ..].
  destruct (Hself q Hq) as [<- Hne].
  destruct (self1 q) as [factored | |]; cbn; [| done ..].
  destruct (negb (len factored =? 0)%nat); [| apply IH].
  unfold lookup_dict. destruct (d !! number); cbn; [apply IH | done].
Qed.

(** Fuel equal to the value is enough, and more changes nothing. *)
Lemma factor_to_tree_fuel (numbers : list Z) (n : nat) :
  Forall (λ k, 2 ≤ k) numbers →
  ∀ value f1 f2, 0 < value →
    (Z.to_nat value ≤ n)%nat → (Z.to_nat value ≤ f1)%nat →
    (Z.to_nat value ≤ f2)%nat →
    factor_to_tree d f1 value numbers = factor_to_tree d f2 value numbers ∧
    factor_to_tree d f1 value numbers ≠ OutOfFuel.
Proof.
  intros Hnum. induction n as [|n IH]; intros value f1 f2 Hv Hn H1 H2; [lia |].
  destruct f1 as [|f1]; [lia |]. destruct f2 as [|f2]; [lia |]. simpl.
  apply factor_to_tree_loop_ext; [done .. |].
  intros q Hq. apply IH; lia.
Qed.

Lemma factor_fuel (numbers : list Z) (n : nat) :
  Forall (λ k, 2 ≤ k) numbers →
  ∀ value f1 f2, 0 < value →
    (Z.to_nat value ≤ n)%nat → (Z.to_nat value ≤ f1)%nat →
    (Z.to_nat value ≤ f2)%nat →
    factor d f1 value numbers = factor d f2 value numbers ∧
    factor d f1 value numbers ≠ OutOfFuel.
Proof.
  intros Hnum. induction n as [|n IH]; intros value f1 f2 Hv Hn H1 H2; [lia |].
  destruct f1 as [|f1]; [lia |]. destruct f2 as [|f2]; [lia |]. simpl.
  apply factor_loop_ext; [done .. |].
  intros q Hq. apply IH; lia.
Qed.
End termination.

(** C10. For a positive value and factors that are all at least 2, each
    recursive call of the two factorizers is on a positive value
    smaller than the current one, and both return (a result or an
    exception): fuel equal to the value suffices and any larger fuel
    gives the same outcome. *)
Theorem factorizers_terminate (d : dict) (value : Z) (numbers : list Z) :
  0 < value → Forall (λ n, 2 ≤ n) numbers →
  (∀ number q, number ∈ numbers → value mod number = 0 →
     Py.int_truediv value number = Ret q → 0 < q < value) ∧
  (∃ r, r ≠ OutOfFuel ∧
     ∀ fuel, (Z.to_nat value ≤ fuel)%nat →
       factor_to_tree d fuel value numbers = r) ∧
  (∃ r, r ≠ OutOfFuel ∧
     ∀ fuel, (Z.to_nat value ≤ fuel)%nat → factor d fuel value numbers = r).
Proof.
  intros Hv Hnum. split; [| split].
  - intros number q Hin Hmod Hq. rewrite Forall_forall in Hnum.
    by apply (PyFacts.int_truediv_decreases value number); [| apply Hnum | |].
  - exists (factor_to_tree d (Z.to_nat value) value numbers). split.
    + by apply (factor_to_tree_fuel d numbers (Z.to_nat value) Hnum
                  value _ (Z.to_nat value)).
    + intros fuel Hfuel.
      by apply (factor_to_tree_fuel d numbers (Z.to_nat value) Hnum).
  - exists (factor d (Z.to_nat value) value numbers). split.
    + by apply (factor_fuel d numbers (Z.to_nat value) Hnum
                  value _ (Z.to_nat value)).
    + intros fuel Hfuel.
      by apply (factor_fuel d numbers (Z.to_nat value) Hnum).
Qed.

(** Conjunctions of closed equations, each settled by evaluation. *)
Ltac split_conj := repeat match goal with |- _ ∧ _ => split end.
Ltac by_evaluation := split_conj; vm_compute; reflexivity.

(** ** Input validation *)

Lemma word_signature_foreign (w : word) (c : ascii) :
  c ∈ w → ¬ table_letter c → word_signature w = Raise KeyError.
Proof.
  intros Hin Hc. induction w as [|x w IH]; [by apply elem_of_nil in Hin |].
  rewrite word_signature_cons.
  destruct (primes !! x) as [p|] eqn:Hx; cbn; [| reflexivity].
  apply elem_of_cons in Hin as [-> | Hin].
  - exfalso. apply Hc. by exists p.
  - by rewrite (IH Hin).
Qed.



(** A text of one-byte characters is read as itself. *)
Lemma read_text_of (w : word) : read_text (text_of w) = w.
Proof.
  unfold read_text, text_of. rewrite map_map.
  rewrite <- (map_id w) at 2. apply map_ext. intros c.
  destruct c as [[] [] [] [] [] [] [] []]; vm_compute; reflexivity.
Qed.

(** The KELVIN SIGN is accepted as the letter "k", as in Python. *)
Example kelvin_sign_accepted :
  prepare_data dict_ai (read_args [[ [8490%N] ]])
    = Ret (Globals dict_ai (str "k") 31 []).
Proof. vm_compute. reflexivity. Qed.

(** A space inside one argument is not removed by the code: the phrase
    of the specification is "ai", the program stops on the space. *)
Example space_inside_argument :
  spec_phrase [text_of (str "a i")] = str "ai" ∧
  prepare_data dict_ai (read_args [[text_of (str "a i")]]) = Raise KeyError.
Proof. split; vm_compute; reflexivity. Qed.



(** ** The factorizer where the quotients are exact *)

Section exact_range.
Variable d : dict.
Variable numbers : list Z.

Lemma decomposes_nil (value : Z) : decomposes d numbers value [].
Proof. intros path Hin. by apply elem_of_nil in Hin. Qed.

Lemma decomposes_app (value : Z) (f1 f2 : list Node) :
  decomposes d numbers value f1 → decomposes d numbers value f2 →
  decomposes d numbers value (f1 ++ f2).
Proof.
  intros H1 H2 path. rewrite map_app, concat_app, elem_of_app.
  intros [Hin | Hin]; [by apply H1 | by apply H2].
Qed.

Lemma decomposes_leaf (value : Z) (ws : list word) :
  value ∈ numbers → d !! value = Some ws →
  decomposes d numbers value [mkNode (WordLists [ws]) []].
Proof.
  intros Hin Hws path. cbn. rewrite list_elem_of_singleton. intros ->.
  exists [value]. split.
  - constructor; [| constructor]. split; [done |]. exists ws. auto.
  - unfold prod. cbn. lia.
Qed.

Lemma decomposes_node (value number q : Z) (ws : list word)
    (factored : list Node) :
  number ∈ numbers → d !! number = Some ws → value = number * q →
  (0 < length factored)%nat →
  decomposes d numbers q factored →
  decomposes d numbers value [mkNode (Words ws) factored].
Proof.
  intros Hin Hws -> Hlen Hq path. cbn.
  destruct factored as [|n0 factored]; [simpl in Hlen; lia |].
  rewrite app_nil_r, list_elem_of_In, in_map_iff.
  intros (path' & <- & Hpath'%list_elem_of_In).
  destruct (Hq path' Hpath') as (factors & Hall & Hprod).
  exists (number :: factors). split.
  - constructor; [| done]. split; [done |]. exists ws. auto.
  - rewrite prod_cons. by rewrite Hprod.
Qed.

Lemma factor_to_tree_loop_exact (self : Z → result (list Node))
    (value : Z) (rest : list Z) (acc forest : list Node) :
  0 < value < 2 ^ 53 →
  (∀ q forest', 0 < q < 2 ^ 53 → self q = Ret forest' →
     decomposes d numbers q forest') →
  Forall (λ k, 0 < k ∧ k ∈ numbers) rest →
  decomposes d numbers value acc →
  factor_to_tree_loop d self value rest acc = Ret forest →
  decomposes d numbers value forest.
Proof.
  intros Hv Hself Hrest. revert acc.
  induction Hrest as [|number rest [Hpos Hin] _ IH]; intros acc Hacc; simpl.
  { by intros [= <-]. }
  destruct (Z.eqb_spec value number) as [<- | Hne]; simpl.
  - unfold lookup_dict. destruct (d !! value) as [ws|] eqn:Hws; cbn;
      [| discriminate].
    intros [= <-]. by apply decomposes_leaf.
  - unfold Py.mod_. destruct (Z.eqb_spec number 0) as [| _]; [lia |]. cbn.
    destruct (Z.eqb_spec (value mod number) 0) as [Hmod | _];
      [| by apply IH].
    assert (HQ : value = number * (value / number))
      by (apply Z_div_exact_full_2; lia).
    assert (Hq : 0 < value / number < 2 ^ 53).
    { assert (H53 : 2 ^ 53 = 9007199254740992) by reflexivity.
      rewrite H53 in *. nia. }
    rewrite PyFacts.int_truediv_exact by (lia || done). cbn.
    destruct (self (value / number)) as [factored | |] eqn:Hfact; cbn;
      [| discriminate ..].
    destruct (length factored) as [|len'] eqn:Hlen; [by apply IH |].
    unfold lookup_dict. destruct (d !! number) as [ws|] eqn:Hws; cbn;
      [| discriminate].
    apply IH. apply decomposes_app; [done |].
    apply (decomposes_node value number (value / number)); try done.
    + lia.
    + by apply Hself.
Qed.

(** Below [2^53], where [int(value/number)] is the exact quotient, the
    forest of [factor_to_tree] only holds paths whose factors multiply
    to the value. *)
Lemma factor_to_tree_exact (fuel : nat) (value : Z) (forest : list Node) :
  0 < value < 2 ^ 53 → Forall (λ k, 0 < k) numbers →
  factor_to_tree d fuel value numbers = Ret forest →
  decomposes d numbers value forest.
Proof.
  intros Hv Hnum. revert value forest Hv.
  induction fuel as [|fuel IH]; intros value forest Hv; [discriminate |].
  simpl. apply factor_to_tree_loop_exact.
  - done.
  - intros q forest' Hq. by apply IH.
  - rewrite Forall_forall in Hnum. apply Forall_forall. intros k Hk.
    split; [by apply Hnum | done].
  - apply decomposes_nil.
Qed.
Hypothesis dict_nonempty : ∀ k ws, d !! k = Some ws → ws ≠ [].

Lemma to_json_inner (forest : list Node) :
  Forall inner_node forest → to_json forest = JDicts (map node_json forest).
Proof.
  intros Hall. destruct forest as [|n forest]; [reflexivity |].
  inversion Hall as [|? ? (ws & cs & ->) _]; subst.
  destruct forest; reflexivity.
Qed.

Lemma len_to_json (forest : list Node) :
  forest_shape forest →
  negb (len (to_json forest) =? 0)%nat = (0 <? length forest)%nat.
Proof.
  intros [(ws & Hws & ->) | Hall].
  - cbn. by destruct ws.
  - rewrite to_json_inner by done. cbn. rewrite length_map.
    by destruct (length forest).
Qed.

Lemma factor_to_tree_loop_shape (self : Z → result (list Node)) (value : Z)
    (rest : list Z) (acc forest : list Node) :
  Forall inner_node acc →
  factor_to_tree_loop d self value rest acc = Ret forest →
  forest_shape forest.
Proof.
  revert acc. induction rest as [|number rest IH]; intros acc Hacc; simpl.
  { intros [= <-]. by right. }
  destruct (value =? number); simpl.
  - unfold lookup_dict. destruct (d !! value) as [ws|] eqn:Hws; cbn;
      [| discriminate].
    intros [= <-]. left. exists ws. split; [| done].
    by eapply dict_nonempty.
  - destruct (Py.mod_ value number) as [r | |]; cbn; [| discriminate ..].
    destruct (r =? 0); [| by apply IH].
    destruct (Py.int_truediv value number) as [q | |]; cbn;
      [| discriminate ..].
    destruct (self q) as [factored | |]; cbn; [| discriminate ..].
    destruct (length factored); [by apply IH |].
    unfold lookup_dict. destruct (d !! number) as [ws|]; cbn;
      [| discriminate].
    apply IH. apply Forall_app. split; [done |].
    constructor; [| constructor]. by exists ws, factored.
Qed.

Lemma factor_to_tree_shape (fuel : nat) (value : Z) (forest : list Node) :
  factor_to_tree d fuel value numbers = Ret forest → forest_shape forest.
Proof.
  destruct fuel as [|fuel]; [discriminate |]. simpl.
  apply factor_to_tree_loop_shape. constructor.
Qed.

Lemma factor_loop_exact (selft : Z → result (list Node))
    (selfj : Z → result json) (value : Z) (rest : list Z) (acc : list Node) :
  0 < value < 2 ^ 53 →
  (∀ q, 0 < q < 2 ^ 53 →
     selfj q = (forest ← selft q; mret (to_json forest)) ∧
     ∀ forest, selft q = Ret forest → forest_shape forest) →
  Forall (λ k, 0 < k < 2 ^ 53) rest →
  Forall inner_node acc →
  factor_loop d selfj value rest (map node_json acc) =
    forest ← factor_to_tree_loop d selft value rest acc;
    mret (to_json forest).
Proof.
  intros Hv Hself Hrest. revert acc.
  induction Hrest as [|number rest Hn _ IH]; intros acc Hacc; simpl.
  { cbn. unfold mret, result_ret. by rewrite to_json_inner. }
  assert (H53 : 2 ^ 53 = 9007199254740992) by reflexivity.
  unfold Py.mod_. destruct (Z.eqb_spec number 0) as [| _]; [lia |].
  destruct (PyFacts.truediv_eq_1 value number Hv Hn) as (f & Hf & Heqb).
  rewrite Hf. cbn.
  destruct (Z.eqb_spec value number) as [<- | Hne]; simpl.
  - rewrite Z_mod_same_full. cbn.
    rewrite PyFacts.int_truediv_exact;
      [| lia | lia | apply Z_mod_same_full | rewrite Z_div_same_full; lia].
    rewrite Z_div_same_full by lia. cbn.
    rewrite Heqb.
    unfold lookup_dict. by destruct (d !! value).
  - destruct (Z.eqb_spec (value mod number) 0) as [Hmod | _]; cbn.
    + assert (HQ : value = number * (value / number))
        by (apply Z_div_exact_full_2; lia).
      assert (Hq : 1 < value / number < 2 ^ 53).
      { rewrite H53 in *. set (Q := value / number) in *.
        assert (0 < Q) by nia. assert (Q ≠ 1) by nia. nia. }
      rewrite PyFacts.int_truediv_exact by (lia || done). cbn.
      destruct (Z.eqb_spec (value / number) 1) as [| _]; [lia |]. cbn.
      destruct (Hself (value / number)) as [-> Hshape]; [lia |].
      destruct (selft (value / number)) as [factored | |]; cbn;
        [| reflexivity ..].
      rewrite len_to_json by (by apply Hshape).
      destruct (length factored) eqn:Hlen; cbn; [by apply IH |].
      unfold lookup_dict. destruct (d !! number) as [ws|]; cbn;
        [| reflexivity].
      rewrite <- IH.
      * by rewrite map_app.
      * apply Forall_app. split; [done |].
        constructor; [| constructor]. by exists ws, factored.
    + rewrite Heqb. by apply IH.
Qed.

(** Below [2^53], for a dictionary without empty entries, the mapping
    output is the tree output put in mapping form: the two functions
    find the same decompositions and raise the same exceptions. *)
Lemma factor_exact (fuel : nat) (value : Z) :
  0 < value < 2 ^ 53 → Forall (λ k, 0 < k < 2 ^ 53) numbers →
  factor d fuel value numbers =
    forest ← factor_to_tree d fuel value numbers; mret (to_json forest).
Proof.
  intros Hv Hnum. revert value Hv.
  induction fuel as [|fuel IH]; intros value Hv; [reflexivity |].
  simpl. apply (factor_loop_exact _ _ value numbers []); try done.
  intros q Hq. split; [by apply IH |].
  intros forest. apply factor_to_tree_shape.
Qed.
End exact_range.

(** ** Where the recursive factorizer departs from its description *)

(** C4, the code at a failing input. For the phrase "ai" with "ai", "i"
    and "a" in the dictionary, [factor_to_tree] and [factor] stop at the
    first factor, which is the value itself, and return that leaf alone;
    the factors 23 and 2 divide 46 properly and their quotients
    decompose, so that the forest of section 4.4 holds three
    decompositions. *)
Lemma factor_to_tree_stops_at_equal_factor :
  prepare_data dict_ai [[str "ai"]]
    = Ret (Globals dict_ai (str "ai") 46 [46; 23; 2]) ∧
  factor_to_tree dict_ai 2 46 [46; 23; 2]
    = Ret [mkNode (WordLists [[str "ai"]]) []] ∧
  factor dict_ai 2 46 [46; 23; 2] = Ret (JWords [str "ai"]) ∧
  factor_to_tree dict_ai 2 2 [46; 23; 2]
    = Ret [mkNode (WordLists [[str "a"]]) []] ∧
  factor_to_tree dict_ai 2 23 [46; 23; 2]
    = Ret [mkNode (WordLists [[str "i"]]) []] ∧
  spec_factor dict_ai 2 46 [46; 23; 2]
    = Ret [mkNode (WordLists [[str "ai"]]) [];
           mkNode (Words [str "i"]) [mkNode (WordLists [[str "a"]]) []];
           mkNode (Words [str "a"]) [mkNode (WordLists [[str "i"]]) []]].
Proof. by_evaluation. Qed.

(** C5, the code at a failing input. For the phrase "a volunteers" the
    factor 2 divides the signature evenly and the exact quotient is the
    signature of "volunteers", but [int(value/number)] is that quotient
    rounded to 53 bits, one more: this is what the recursive call
    receives, and the decomposition "a" then "volunteers" is lost. *)
Lemma recursive_call_receives_rounded_quotient :
  let value := 30282821832189806 in
  word_signature (str "avolunteers") = Ret value ∧
  value mod 2 = 0 ∧
  value / 2 = 15141410916094903 ∧
  Py.int_truediv value 2 = Ret 15141410916094904 ∧
  (∀ self : Z → result (list Node),
     factor_to_tree_loop dict_volunteers self value [2] [] =
       factored ← self 15141410916094904;
       if (0 <? length factored)%nat
       then Ret [mkNode (Words [str "a"]) factored] else Ret []) ∧
  (∀ self : Z → result json,
     factor_loop dict_volunteers self value [2] [] =
       factored ← self 15141410916094904;
       if negb (len factored =? 0)%nat
       then Ret (JDicts [([str "a"], factored)]) else Ret (JDicts [])) ∧
  factor_to_tree dict_volunteers 60 value [15141410916094903; 2]
    = Ret [mkNode (Words [str "volunteers"])
             [mkNode (WordLists [[str "a"]]) []]] ∧
  spec_factor dict_volunteers 60 value [15141410916094903; 2]
    = Ret [mkNode (Words [str "volunteers"])
             [mkNode (WordLists [[str "a"]]) []];
           mkNode (Words [str "a"])
             [mkNode (WordLists [[str "volunteers"]]) []]].
Proof.
  cbv zeta. by_evaluation.
Qed.

(** C3, the code at a failing input. The two sample strings have the
    consecutive signatures [n] and [n + 1]; for a phrase made of both,
    the quotient of its signature by [n] is [n + 1], which rounds to
    [n]: the forest holds the path "word_lo, word_lo", whose product is
    [n * n], not the value factored. *)
Lemma forest_path_with_wrong_product :
  let n := 166055401586083680 in
  let value := n * (n + 1) in
  word_signature word_lo = Ret n ∧
  word_signature word_hi = Ret (n + 1) ∧
  word_signature (word_hi ++ word_lo) = Ret value ∧
  Py.int_truediv value n = Ret n ∧
  ∃ forest path,
    factor_to_tree dict_consecutive 3 value [n + 1; n] = Ret forest ∧
    path ∈ concat (map paths forest) ∧
    path = [Words [word_lo]; WordLists [[word_lo]]] ∧
    path_product path = Ret (n * n) ∧
    n * n ≠ value.
Proof.
  cbv zeta. split_conj; try (vm_compute; reflexivity).
  eexists _, _. split; [vm_compute; reflexivity |].
  split; [| split; [reflexivity | split; [vm_compute; reflexivity | lia]]].
  cbn. set_solver.
Qed.

(** C7, the code at a failing input. For the phrase "a volunteers" the
    tree output holds one decomposition, while the mapping output is
    none at all: the rounded quotient divided by the signature of
    "volunteers" compares equal to 1 as a float, [factor] takes the
    rounded quotient for a dictionary key and raises [KeyError]. *)
Lemma tree_and_mapping_outputs_differ :
  recursive_tree 60 dict_volunteers [[str "a"; str "volunteers"]]
    = Ret (mkNode (Phrase (str "avolunteers"))
             [mkNode (Words [str "volunteers"])
                [mkNode (WordLists [[str "a"]]) []]]) ∧
  recursive_json 60 dict_volunteers [[str "a"; str "volunteers"]]
    = Raise KeyError ∧
  (f ← Py.truediv 15141410916094904 15141410916094903;
   mret (Py.eqb_int f 1)) = Ret true ∧
  dict_volunteers !! 15141410916094904 = None.
Proof. by_evaluation. Qed.

(** ** The theorems at concrete inputs *)

Ltac by_computation := refine (bool_decide_unpack _ _); vm_compute; exact I.

(** C1 on "listen" and "silent". *)
Lemma signature_eq_iff_same_multiset_witness :
  Forall table_letter (str "listen") ∧
  Forall table_letter (str "silent") ∧
  (word_signature (str "listen") = word_signature (str "silent")
   ↔ str "listen" ≡ₚ str "silent").
Proof.
  split; [by_computation |]. split; [by_computation |].
  apply signature_eq_iff_same_multiset; by_computation.
Defined.

(** C8 on "listen" and "tinsel". *)
Lemma word_signature_permutation_invariant_witness :
  Forall table_letter (str "listen") ∧
  str "listen" ≡ₚ str "tinsel" ∧
  ∃ s, word_signature (str "listen") = Ret s ∧
       word_signature (str "tinsel") = Ret s.
Proof.
  split; [by_computation |]. split; [by_computation |].
  apply word_signature_permutation_invariant; by_computation.
Defined.

(** C2 on the phrase "listen" with its four anagrams in the dictionary. *)
Lemma iterative_prints_only_matches_witness :
  prepare_data dict_listen [[str "listen"]] = Ret globals_listen ∧
  max_words globals_listen = Ret 3 ∧
  iterative_run globals_listen 3 [[1914801911]] (Ret ()) ∧
  letter_count globals_listen [1914801911] = Ret 6 ∧
  prod [1914801911] = 1914801911 ∧
  word_signature (str "listen") = Ret 1914801911.
Proof.
  assert (Hprep : prepare_data dict_listen [[str "listen"]]
                  = Ret globals_listen) by (vm_compute; reflexivity).
  assert (Hmax : max_words globals_listen = Ret 3)
    by (vm_compute; reflexivity).
  assert (Hrun : iterative_run globals_listen 3 [[1914801911]] (Ret ())).
  { pose proof (iterative_in_order_run globals_listen 3) as H.
    assert (Heq : iterative_in_order globals_listen 3
                  = ([[1914801911]], Ret ())) by (vm_compute; reflexivity).
    rewrite Heq in H. exact H. }
  split; [exact Hprep |]. split; [exact Hmax |]. split; [exact Hrun |].
  apply (iterative_prints_only_matches dict_listen [[str "listen"]]
           globals_listen 3 [[1914801911]] (Ret ()) [1914801911]
           Hprep Hmax Hrun).
  by_computation.
Defined.


(** C10 on the signature of "ai" and its sub-signatures. *)
Lemma factorizers_terminate_witness :
  0 < 46 ∧ Forall (λ n, 2 ≤ n) [46; 23; 2] ∧
  (∀ number q, number ∈ [46; 23; 2] → 46 mod number = 0 →
     Py.int_truediv 46 number = Ret q → 0 < q < 46) ∧
  (∃ r, r ≠ OutOfFuel ∧
     ∀ fuel, (Z.to_nat 46 ≤ fuel)%nat →
       factor_to_tree dict_ai fuel 46 [46; 23; 2] = r) ∧
  (∃ r, r ≠ OutOfFuel ∧
     ∀ fuel, (Z.to_nat 46 ≤ fuel)%nat →
       factor dict_ai fuel 46 [46; 23; 2] = r).
Proof.
  assert (H0 : 0 < 46) by lia.
  assert (Hall : Forall (λ n, 2 ≤ n) [46; 23; 2]) by by_computation.
  split; [exact H0 |]. split; [exact Hall |].
  exact (factorizers_terminate dict_ai 46 [46; 23; 2] H0 Hall).
Defined.


(** * Further properties of the program *)

(** ** Signatures of concatenations and of sub-words *)

Lemma word_signature_cases (w : word) :
  (∃ s, word_signature w = Ret s) ∨ word_signature w = Raise KeyError.
Proof.
  induction w as [|x w IH]; [left; by exists 1 |].
  rewrite word_signature_cons.
  destruct (primes !! x) as [p|]; cbn; [| by right].
  destruct IH as [[s ->] | ->]; cbn; [left; by eexists | by right].
Qed.

Lemma word_signature_app (w1 w2 : word) :
  word_signature (w1 ++ w2) =
    s1 ← word_signature w1; s2 ← word_signature w2; mret (s1 * s2).
Proof.
  induction w1 as [|x w1 IH]; cbn [app].
  - rewrite word_signature_nil. cbn [mbind result_bind].
    destruct (word_signature w2) as [s | |]; cbn [mbind result_bind];
      [| reflexivity ..].
    unfold mret, result_ret. f_equal. lia.
  - rewrite !word_signature_cons, IH.
    destruct (primes !! x) as [p|]; cbn; [| reflexivity].
    destruct (word_signature w1) as [s1 | |]; cbn; [| reflexivity ..].
    destruct (word_signature w2) as [s2 | |]; cbn; [| reflexivity ..].
    unfold mret, result_ret. f_equal. lia.
Qed.

Lemma word_signature_ge_2 (w : word) (s : Z) :
  w ≠ [] → word_signature w = Ret s → 2 ≤ s.
Proof.
  destruct w as [|x w]; [done |]. intros _.
  rewrite word_signature_cons.
  destruct (primes !! x) as [p|] eqn:Hp; cbn; [| discriminate].
  destruct (word_signature w) as [s' | |] eqn:Hw; cbn; [| discriminate ..].
  intros [= <-]. pose proof (primes_ge_2 _ _ Hp).
  destruct (word_signature_table w) as (s2 & Hs2 & Hge);
    [by eapply word_signature_Ret |].
  assert (s2 = s') by congruence. nia.
Qed.

Lemma word_signature_pos (w : word) (s : Z) : word_signature w = Ret s → 1 ≤ s.
Proof.
  intros Hs. destruct (word_signature_table w) as (s' & Hs' & Hge);
    [by eapply word_signature_Ret |].
  congruence.
Qed.

(** The signature of a sub-word divides the signature of the word. *)
Lemma sublist_signature (c w : word) (s : Z) :
  c `sublist_of` w → word_signature w = Ret s →
  ∃ sc, word_signature c = Ret sc ∧ (sc | s) ∧ 1 ≤ sc ≤ s.
Proof.
  intros Hsub Hs.
  apply sublist_submseteq, submseteq_Permutation in Hsub as [k Hperm].
  rewrite (word_signature_Permutation _ _ Hperm), word_signature_app in Hs.
  destruct (word_signature c) as [sc | |] eqn:Hc; cbn in Hs;
    [| discriminate ..].
  destruct (word_signature k) as [sk | |] eqn:Hk; cbn in Hs;
    [| discriminate ..].
  injection Hs as <-. exists sc.
  pose proof (word_signature_pos _ _ Hc). pose proof (word_signature_pos _ _ Hk).
  split; [done |]. split; [exists sk; lia | nia].
Qed.

(** Words with the same signature have the same length. *)
Lemma signature_length (w1 w2 : word) (s : Z) :
  word_signature w1 = Ret s → word_signature w2 = Ret s →
  length w1 = length w2.
Proof.
  intros H1 H2. by rewrite (signature_injective w1 w2 s H1 H2).
Qed.

(** The signature of words put end to end is the product of theirs. *)
Lemma word_signature_concat (ws : list word) (ks : list Z) :
  Forall2 (λ w k, word_signature w = Ret k) ws ks →
  word_signature (concat ws) = Ret (prod ks).
Proof.
  induction 1 as [|w k ws ks Hw _ IH]; [reflexivity |].
  cbn [concat]. rewrite word_signature_app, Hw, IH. cbn [mbind result_bind].
  unfold mret, result_ret. by rewrite prod_cons.
Qed.

(** ** The sub-signature enumerator *)

Lemma mapM_total {A B} (f : A → result B) (l : list A) :
  Forall (λ x, ∃ y, f x = Ret y) l → ∃ k, mapM f l = Ret k.
Proof.
  induction 1 as [|x l [y Hy] _ [k Hk]]; [by exists [] |].
  exists (y :: k). cbn. rewrite Hy. cbn. rewrite Hk. reflexivity.
Qed.

Lemma mapM_cons {A B} (f : A → result B) (x : A) (l : list A) :
  mapM f (x :: l) = y ← f x; k ← mapM f l; mret (y :: k).
Proof. reflexivity. Qed.

(** [mapM] stops at the first exception. *)
Lemma mapM_Raise {A B} (f : A → result B) (l : list A) (e : exn) :
  Forall (λ x, (∃ y, f x = Ret y) ∨ f x = Raise e) l →
  Exists (λ x, f x = Raise e) l →
  mapM f l = Raise e.
Proof.
  induction 1 as [|x l Hx _ IH]; intros Hex; [by inversion Hex |].
  cbn. destruct Hx as [[y Hy] | Hx].
  - rewrite Hy. cbn. inversion Hex as [? ? Hx | ? ? Hex']; subst;
      [congruence |].
    by rewrite (IH Hex').
  - by rewrite Hx.
Qed.

Lemma extend_signatures_Ret (w : word) (sizes acc l : list Z) :
  extend_signatures w sizes acc = Ret l →
  ∀ k, k ∈ l ↔
    k ∈ acc ∨
    ∃ i c, i ∈ sizes ∧ c ∈ combinations w (Z.to_nat i) ∧
           word_signature c = Ret k.
Proof.
  revert acc. induction sizes as [|i sizes IH]; intros acc; simpl.
  - intros [= <-] k. split; [by left |].
    intros [? | (i & c & Hi & _)]; [done | by apply elem_of_nil in Hi].
  - intros (sigs & Hsigs & Hrest)%bind_Ret k.
    rewrite (IH _ Hrest k), elem_of_app.
    apply mapM_Ret in Hsigs. split.
    + intros [[Hacc | Hk] | (j & c & Hj & Hc & Hs)].
      * by left.
      * right. destruct (Forall2_elem_of_r _ _ _ _ Hsigs Hk) as (c & Hc & Hs).
        exists i, c. split; [left | done].
      * right. exists j, c. split; [by right | done].
    + intros [Hacc | (j & c & Hj & Hc & Hs)]; [by left; left |].
      apply elem_of_cons in Hj as [-> | Hj].
      * left; right.
        destruct (Forall2_elem_of_l _ _ _ _ Hsigs Hc) as (k' & Hk' & Hs').
        congruence.
      * right. by exists j, c.
Qed.

Lemma extend_signatures_total (w : word) (sizes acc : list Z) (s : Z) :
  word_signature w = Ret s → ∃ l, extend_signatures w sizes acc = Ret l.
Proof.
  intros Hs. revert acc. induction sizes as [|i sizes IH]; intros acc; simpl.
  - by eexists.
  - destruct (mapM_total word_signature (combinations w (Z.to_nat i)))
      as [sigs Hsigs].
    { apply Forall_forall. intros c [Hsub _]%elem_of_combinations.
      destruct (sublist_signature c w s Hsub Hs) as (sc & Hsc & _).
      by exists sc. }
    rewrite Hsigs. cbn. apply IH.
Qed.

#[local] Instance Z_ge_total : Total Z.ge.
Proof. intros x y. lia. Qed.
#[local] Instance Z_ge_trans : Transitive Z.ge.
Proof. intros x y z. lia. Qed.

Lemma StronglySorted_ge_NoDup (l : list Z) :
  StronglySorted Z.ge l → NoDup l → StronglySorted Z.gt l.
Proof.
  induction 1 as [|x l Hl IH Hx]; intros Hnd; constructor.
  - apply IH. by inversion Hnd.
  - apply NoDup_cons in Hnd as [Hnotin _].
    rewrite Forall_forall in Hx |- *. intros y Hy.
    specialize (Hx y Hy). assert (x ≠ y) by (intros ->; done). lia.
Qed.

Lemma sub_word_signatures_elem_of (d : dict) (w : word) (s : Z) :
  word_signature w = Ret s →
  ∃ l, sub_word_signatures d w = Ret l ∧
    ∀ k, k ∈ l ↔
      k ∈ dom d ∧
      ∃ c, c ≠ [] ∧ c `sublist_of` w ∧ word_signature c = Ret k.
Proof.
  intros Hs. unfold sub_word_signatures.
  destruct (extend_signatures_total w (range 1 (Z.of_nat (length w) + 1)) [] s Hs)
    as [word_perms Hwp].
  rewrite Hwp. cbn. eexists. split; [reflexivity |].
  intros k. unfold sorted_reverse.
  rewrite merge_sort_Permutation, list_elem_of_filter, elem_of_remove_dups.
  rewrite (extend_signatures_Ret _ _ _ _ Hwp k).
  split.
  - intros [Hdom [Hnil | (i & c & Hi%elem_of_range & Hc & Hk)]];
      [by apply elem_of_nil in Hnil |].
    apply elem_of_combinations in Hc as [Hsub Hlen].
    split; [done |]. exists c. split; [| done].
    intros ->. simpl in Hlen. lia.
  - intros [Hdom (c & Hne & Hsub & Hk)]. split; [done |]. right.
    exists (Z.of_nat (length c)), c. split; [| split; [| done]].
    + apply elem_of_range. pose proof (sublist_length _ _ Hsub).
      destruct c; [done |]. simpl in *. lia.
    + apply elem_of_combinations. split; [done | lia].
Qed.

(** X1. For a phrase of table letters, [sub_word_signatures] returns
    the dictionary keys that are the signature of a non-empty choice of
    letter positions of the phrase, all of them and only them. *)
Theorem sub_word_signatures_spec (d : dict) (w : word) (s : Z) :
  word_signature w = Ret s →
  ∃ l, sub_word_signatures d w = Ret l ∧
    ∀ k, k ∈ l ↔
      k ∈ dom d ∧
      ∃ c, c ≠ [] ∧ c `sublist_of` w ∧ word_signature c = Ret k.
Proof. exact (sub_word_signatures_elem_of d w s). Qed.

Lemma sub_word_signatures_sorted (d : dict) (w : word) (l : list Z) :
  sub_word_signatures d w = Ret l → StronglySorted Z.gt l.
Proof.
  intros Hl. apply StronglySorted_ge_NoDup.
  - unfold sub_word_signatures in Hl.
    apply bind_Ret in Hl as (word_perms & _ & [= <-]).
    apply StronglySorted_merge_sort; apply _.
  - by apply sub_word_signatures_Ret in Hl as [? _].
Qed.

(** X2. The list [sub_word_signatures] returns is strictly decreasing:
    largest signature first, none twice. *)
Theorem sub_word_signatures_decreasing (d : dict) (w : word) (l : list Z) :
  sub_word_signatures d w = Ret l → StronglySorted Z.gt l.
Proof. exact (sub_word_signatures_sorted d w l). Qed.

Lemma prepare_data_perms_divide (pickle : dict) (args : list (list word))
    (g : globals) (k : Z) :
  prepare_data pickle args = Ret g → k ∈ perms g →
  k ∈ dom (dictionary g) ∧ 2 ≤ k ≤ base_signature g ∧ (k | base_signature g).
Proof.
  intros (ws & _ & _ & Hd & Hsig & Hperms)%prepare_data_Ret Hk.
  destruct (sub_word_signatures_elem_of pickle (base g) _ Hsig) as (l & Hl & Hspec).
  assert (l = perms g) as -> by congruence.
  apply Hspec in Hk as [Hdom (c & Hne & Hsub & Hc)].
  destruct (sublist_signature c (base g) _ Hsub Hsig) as (sc & Hsc & Hdiv & Hle).
  assert (sc = k) as -> by congruence.
  pose proof (word_signature_ge_2 c k Hne Hc).
  rewrite Hd. split; [done |]. split; [lia | done].
Qed.

(** X3. After [prepare_data] every sub-signature is a dictionary key of
    at least 2 that divides the signature of the phrase (so is at most
    that signature). *)
Theorem perms_divide_base_signature (pickle : dict) (args : list (list word))
    (g : globals) (k : Z) :
  prepare_data pickle args = Ret g → k ∈ perms g →
  k ∈ dom (dictionary g) ∧ 2 ≤ k ≤ base_signature g ∧ (k | base_signature g).
Proof. exact (prepare_data_perms_divide pickle args g k). Qed.

(** X4. A phrase that holds a character outside the letter table makes
    [sub_word_signatures] raise [KeyError], whatever the dictionary. *)
Theorem sub_word_signatures_foreign (d : dict) (w : word) (c : ascii) :
  c ∈ w → ¬ table_letter c → sub_word_signatures d w = Raise KeyError.
Proof.
  intros Hin Hc. unfold sub_word_signatures.
  assert (Hlen : (0 < length w)%nat) by (destruct w; [by apply elem_of_nil in Hin | simpl; lia]).
  assert (Hrange : range 1 (Z.of_nat (length w) + 1)
                   = 1 :: range 2 (Z.of_nat (length w) + 1)).
  { unfold range.
    replace (Z.to_nat (Z.of_nat (length w) + 1 - 1)) with
      (S (Z.to_nat (Z.of_nat (length w) + 1 - 2))) by lia.
    cbn [seq map]. f_equal. rewrite <- seq_shift, map_map.
    apply map_ext. intros i. lia. }
  rewrite Hrange. cbn [extend_signatures].
  rewrite (mapM_Raise word_signature _ KeyError); [reflexivity | |].
  - apply Forall_forall. intros x _.
    destruct (word_signature_cases x) as [[sx ->] | ->]; [left; by eexists | by right].
  - apply Exists_exists. exists [c]. split.
    + apply elem_of_combinations. split; [| done].
      by apply singleton_sublist_l.
    + by apply (word_signature_foreign [c] c); [left |].
Qed.

(** ** Building the dictionary *)

Lemma add_word_lookup (d : dict) (p k : Z) (w : word) :
  add_word d p w !! k =
    if decide (k = p) then Some (default [] (d !! p) ++ [w]) else d !! k.
Proof.
  unfold add_word. destruct (d !! p) as [ws|] eqn:Hp; simpl;
    rewrite lookup_insert; destruct (decide (p = k)), (decide (k = p));
    congruence.
Qed.

Lemma admitted_words_cons (scrabble : list word) (line : word)
    (lines : list word) :
  admitted_words scrabble (line :: lines) =
    let w := map str_lower (strip line) in
    if skipped scrabble w then admitted_words scrabble lines
    else w :: admitted_words scrabble lines.
Proof.
  unfold admitted_words. cbn [map]. rewrite filter_cons. cbv zeta.
  destruct (skipped scrabble _); destruct (decide _) as [H | H];
    congruence.
Qed.

(** What the loop of [create_dict] adds to a dictionary: under each key
    other than 1, the admitted words of that signature, in file order,
    after the words already there. *)
Lemma create_dict_loop_lookup (scrabble lines : list word) (d0 d : dict)
    (k : Z) :
  create_dict_loop scrabble lines d0 = Ret d →
  d !! k =
    let ws := filter (λ w, word_signature w = Ret k)
                (admitted_words scrabble lines) in
    if decide (k = 1) then d0 !! k
    else match ws with
         | [] => d0 !! k
         | _ => Some (default [] (d0 !! k) ++ ws)
         end.
Proof.
  revert d0. induction lines as [|line lines IH]; intros d0.
  { intros [= <-]. cbn. by destruct (decide (k = 1)). }
  cbn [create_dict_loop]. rewrite admitted_words_cons. cbv zeta.
  set (w := map str_lower (strip line)).
  destruct (skipped scrabble w); [apply IH |].
  destruct (word_signature w) as [p | |] eqn:Hp; cbn [mbind result_bind];
    [| discriminate ..].
  rewrite filter_cons, Hp.
  destruct (Z.eqb_spec p 1) as [-> | Hp1]; cbn [negb].
  - intros Hd. rewrite (IH _ Hd). cbv zeta.
    destruct (decide (k = 1)) as [| Hk]; [done |].
    destruct (decide (Ret 1 = Ret k)) as [[= <-] |]; done.
  - intros Hd. rewrite (IH _ Hd). cbv zeta. rewrite add_word_lookup.
    destruct (decide (k = 1)) as [-> | Hk].
    + by destruct (decide (1 = p)).
    + destruct (decide (k = p)) as [-> | Hkp].
      * destruct (decide (Ret p = Ret p)); [| done].
        destruct (filter _ _); cbn; [done |].
        by rewrite <- app_assoc.
      * destruct (decide (Ret p = Ret k)) as [[= ->] |]; done.
Qed.

Lemma create_dict_lookup (scrabble_text text : word) (d : dict) (k : Z) :
  create_dict scrabble_text text ∅ = Ret d →
  d !! k =
    let ws := filter (λ w, word_signature w = Ret k)
                (admitted_words (scrabble_words scrabble_text)
                   (split_lines [] text)) in
    if decide (k = 1 ∨ ws = []) then None else Some ws.
Proof.
  intros Hd. unfold create_dict in Hd.
  rewrite (create_dict_loop_lookup _ _ _ _ k Hd). cbv zeta.
  rewrite lookup_empty.
  destruct (decide (k = 1)) as [-> | Hk].
  - by destruct (decide _) as [| []]; [| left].
  - destruct (filter _ _) as [|w ws] eqn:Hf.
    + by destruct (decide _) as [| []]; [| right].
    + destruct (decide _) as [[? | ?] |]; done.
Qed.

(** X5. The dictionary built from an empty one holds, under each key,
    exactly the words of the file that were not skipped and have that
    signature, in file order and as many times as the file lists them;
    the key 1 (the empty line) and keys without such a word are
    absent. *)
Theorem create_dict_entries (scrabble_text text : word) (d : dict) (k : Z) :
  create_dict scrabble_text text ∅ = Ret d →
  d !! k =
    let ws := filter (λ w, word_signature w = Ret k)
                (admitted_words (scrabble_words scrabble_text)
                   (split_lines [] text)) in
    if decide (k = 1 ∨ ws = []) then None else Some ws.
Proof. exact (create_dict_lookup scrabble_text text d k). Qed.

Lemma create_dict_keyed (scrabble_text text : word) (d : dict) :
  create_dict scrabble_text text ∅ = Ret d →
  keyed_by_signature d ∧ ∀ k, k ∈ dom d → 2 ≤ k.
Proof.
  intros Hd.
  assert (Hkey : keyed_by_signature d).
  { intros k ws Hk. rewrite (create_dict_lookup _ _ _ k Hd) in Hk.
    cbv zeta in Hk. destruct (decide _) as [| Hne]; [discriminate |].
    injection Hk as <-. split; [tauto |].
    apply Forall_forall. by intros w [Hw _]%list_elem_of_filter. }
  split; [done |].
  intros k [ws Hk]%elem_of_dom. pose proof Hk as Hk'.
  rewrite (create_dict_lookup _ _ _ k Hd) in Hk'. cbv zeta in Hk'.
  destruct (decide _) as [| Hne]; [discriminate |].
  destruct (Hkey k ws Hk) as [Hws Hall].
  destruct ws as [|w ws]; [done |].
  apply Forall_cons in Hall as [Hw _].
  pose proof (word_signature_pos _ _ Hw). lia.
Qed.

(** X6. The dictionary [create_dict] builds is keyed by signature: no
    entry is empty, every word of an entry has the entry's key as
    signature, and every key is at least 2. *)
Theorem create_dict_keyed_by_signature (scrabble_text text : word) (d : dict) :
  create_dict scrabble_text text ∅ = Ret d →
  keyed_by_signature d ∧ ∀ k, k ∈ dom d → 2 ≤ k.
Proof. exact (create_dict_keyed scrabble_text text d). Qed.

(** X7. What [create_dict] keeps: a stored word is made of table
    letters only, a stored one-letter word is "a" or "i", and a stored
    word of two to four letters is one of the short words of the
    Scrabble list. *)
Theorem create_dict_words_kept (scrabble_text text : word) (d : dict)
    (k : Z) (ws : list word) (w : word) :
  create_dict scrabble_text text ∅ = Ret d →
  d !! k = Some ws → w ∈ ws →
  Forall table_letter w ∧
  (length w = 1%nat → w = str "a" ∨ w = str "i") ∧
  ((1 < length w < 5)%nat → w ∈ scrabble_words scrabble_text).
Proof.
  intros Hd Hk Hw. rewrite (create_dict_lookup _ _ _ k Hd) in Hk.
  cbv zeta in Hk. destruct (decide _) as [| Hne]; [discriminate |].
  injection Hk as <-.
  apply list_elem_of_filter in Hw as [Hsig Hw].
  unfold admitted_words in Hw.
  apply list_elem_of_filter in Hw as [Hskip _].
  split; [by eapply word_signature_Ret |].
  unfold skipped in Hskip.
  destruct (bool_decide _) eqn:H1; [discriminate |].
  apply bool_decide_eq_false in H1, Hskip.
  split.
  - intros Hlen.
    destruct (decide (w = str "a")); [by left |].
    destruct (decide (w = str "i")); [by right |].
    by destruct H1.
  - intros Hlen.
    destruct (decide (w ∈ scrabble_words scrabble_text)); [done |].
    destruct Hskip. split; [lia | split; [lia | done]].
Qed.

(** X8. The build fails on the first word that is not skipped and holds
    a character outside the letter table (an apostrophe, a digit, an
    accented letter) if the words before it are table words: it raises
    [KeyError] and nothing is pickled. *)
Theorem create_dict_foreign (scrabble_text text : word)
    (lines1 lines2 : list word) (line : word) (c : ascii) (d0 : dict) :
  split_lines [] text = lines1 ++ line :: lines2 →
  Forall (λ w, Forall table_letter w)
    (admitted_words (scrabble_words scrabble_text) lines1) →
  skipped (scrabble_words scrabble_text) (map str_lower (strip line)) = false →
  c ∈ map str_lower (strip line) → ¬ table_letter c →
  create_dict scrabble_text text d0 = Raise KeyError.
Proof.
  intros Hlines Hall Hskip Hc Hforeign. unfold create_dict. rewrite Hlines.
  clear Hlines. set (scrabble := scrabble_words scrabble_text) in *.
  revert d0 Hall.
  induction lines1 as [|l1 lines1 IH]; intros d0 Hall.
  - cbn [app create_dict_loop]. rewrite Hskip.
    by rewrite (word_signature_foreign _ c Hc Hforeign).
  - cbn [app create_dict_loop]. rewrite admitted_words_cons in Hall.
    cbv zeta in Hall.
    destruct (skipped scrabble (map str_lower (strip l1))); [by apply IH |].
    apply Forall_cons in Hall as [Hw Hall].
    destruct (word_signature_table _ Hw) as (s & -> & _).
    cbn [mbind result_bind]. destruct (negb (s =? 1)); by apply IH.
Qed.

(** ** The iterative search over a dictionary keyed by signature *)

Section iterative_keyed.
Variable g : globals.
Hypothesis keyed : keyed_by_signature (dictionary g).
Hypothesis base_sig : word_signature (base g) = Ret (base_signature g).

(** The letter count of known signatures is the number of letters of
    words that have these signatures. *)
Lemma letter_count_keyed (c : list Z) :
  Forall (λ x, x ∈ dom (dictionary g)) c →
  ∃ firsts, Forall2 (λ w x, word_signature w = Ret x) firsts c ∧
    letter_count g c = Ret (Z.of_nat (length (concat firsts))).
Proof.
  unfold letter_count.
  induction 1 as [|x c [ws Hx]%elem_of_dom _ (firsts & Hall & IH)].
  - exists []. split; [constructor | reflexivity].
  - destruct (keyed x ws Hx) as [Hne Hws].
    destruct ws as [|w ws]; [done |].
    apply Forall_cons in Hws as [Hw _].
    exists (w :: firsts). split; [by constructor |].
    apply bind_Ret in IH as (lens & Hlens & [= IH]).
    rewrite mapM_cons. unfold lookup_dict in *. rewrite Hx.
    cbn [of_option mbind result_bind head mret result_ret].
    rewrite Hlens. cbn [mbind result_bind foldr mret result_ret].
    f_equal. cbn [concat]. rewrite IH, length_app. lia.
Qed.

Lemma pre_filter_solution (c : list Z) :
  Forall (λ x, x ∈ dom (dictionary g)) c →
  prod c = base_signature g →
  pre_filter g c = Ret true.
Proof.
  intros Hdom Hprod.
  destruct (letter_count_keyed c Hdom) as (firsts & Hall & Hcount).
  unfold pre_filter. rewrite Hcount. cbn.
  apply word_signature_concat in Hall. rewrite Hprod in Hall.
  rewrite (signature_length _ _ _ Hall base_sig).
  unfold mret, result_ret. f_equal. apply Z.eqb_refl.
Qed.

(** X9. The pre-filter never discards a solution: a combination of
    dictionary keys whose product is the signature of the phrase has
    the letter count of the phrase. *)
Theorem pre_filter_necessary (c : list Z) :
  Forall (λ x, x ∈ dom (dictionary g)) c →
  prod c = base_signature g →
  pre_filter g c = Ret true.
Proof. exact (pre_filter_solution c). Qed.

Lemma lazy_filter_total {A} (p : A → result bool) (xs : list A) :
  Forall (λ x, ∃ b, p x = Ret b) xs →
  lazy_filter p xs = (filter (λ x, p x = Ret true) xs, Ret ()).
Proof.
  induction 1 as [|x xs [b Hb] _ IH]; [reflexivity |].
  cbn [lazy_filter]. rewrite Hb, IH, filter_cons.
  destruct b; destruct (decide _) as [H | H]; congruence.
Qed.

Lemma concat_Permutation {A} (l k : list (list A)) :
  Forall2 Permutation l k → concat l ≡ₚ concat k.
Proof.
  induction 1 as [|x y l k Hxy _ IH]; [done |].
  cbn [concat]. by rewrite Hxy, IH.
Qed.

Lemma concat_map_Permutation {A B} (f : A → list B) (l k : list A) :
  l ≡ₚ k → concat (map f l) ≡ₚ concat (map f k).
Proof.
  induction 1 as [| x l k _ IH | x y l | l k m _ IH1 _ IH2]; cbn [map concat].
  - done.
  - by rewrite IH.
  - rewrite !app_assoc. f_equiv. apply Permutation_app_comm.
  - by rewrite IH1.
Qed.

(** Whatever the pool order, the candidates are those of the in-order
    loop, in some order. *)
Lemma enumerates_Permutation (m : Z) sizes batches :
  enumerates g m sizes batches →
  concat batches ≡ₚ concat (map (size_combinations g) (range 1 m)).
Proof.
  intros [Hsizes Hbatches].
  rewrite <- (concat_map_Permutation _ _ _ Hsizes).
  apply concat_Permutation.
  clear Hsizes. induction Hbatches as [|size batch sizes batches H _ IH];
    cbn [map]; constructor; done.
Qed.

Lemma enumerates_in_order (m : Z) :
  enumerates g m (range 1 m) (map (size_combinations g) (range 1 m)).
Proof.
  split; [done |]. induction (range 1 m); cbn [map]; constructor; done.
Qed.

Hypothesis perms_known : Forall (λ x, x ∈ dom (dictionary g)) (perms g).

Lemma candidates_pre_filter (m : Z) sizes batches (c : list Z) :
  enumerates g m sizes batches → c ∈ concat batches →
  ∃ b, pre_filter g c = Ret b.
Proof.
  intros Henum Hc.
  apply (enumerates_elem_of g m sizes batches c Henum) in Hc as [_ Hsub].
  assert (Hdom : Forall (λ x, x ∈ dom (dictionary g)) c).
  { rewrite Forall_forall in perms_known |- *. intros x Hx.
    apply perms_known. by eapply elem_of_sublist. }
  destruct (letter_count_keyed c Hdom) as (firsts & _ & Hcount).
  unfold pre_filter. rewrite Hcount. cbn. by eexists.
Qed.

(** Over a dictionary keyed by signature no run is stopped by an
    exception, and every run prints what the in-order loop prints, in
    some order. *)
Lemma iterative_run_keyed (m : Z) (printed : list (list Z)) (e : result unit) :
  iterative_run g m printed e →
  e = Ret () ∧ printed ≡ₚ (iterative_in_order g m).1 ∧
  (iterative_in_order g m).2 = Ret ().
Proof.
  intros (sizes & batches & Henum & Hrun).
  rewrite lazy_filter_total in Hrun.
  2:{ apply Forall_forall. intros c Hc.
      by eapply candidates_pre_filter. }
  destruct Hrun as [-> Hprinted].
  unfold iterative_in_order. rewrite lazy_filter_total.
  2:{ apply Forall_forall. intros c Hc.
      apply (candidates_pre_filter m (range 1 m)
               (map (size_combinations g) (range 1 m))); [| done].
      apply enumerates_in_order. }
  cbn [fst snd]. split; [done |]. split; [| done].
  rewrite Hprinted. do 2 f_equiv.
  by apply (enumerates_Permutation m sizes).
Qed.
End iterative_keyed.

Lemma truthy_prod_and_filter_iff (g : globals) (c : list Z) :
  truthy (prod_and_filter g c) ↔ prod c = base_signature g ∧ c ≠ [].
Proof.
  split; [apply truthy_prod_and_filter |].
  intros [Hprod Hne]. unfold prod_and_filter.
  rewrite Hprod, Z.eqb_refl. by destruct c.
Qed.

Lemma prepare_data_perms_known (pickle : dict) (args : list (list word))
    (g : globals) :
  prepare_data pickle args = Ret g →
  Forall (λ x, x ∈ dom (dictionary g)) (perms g).
Proof.
  intros Hg. apply Forall_forall. intros k Hk.
  by destruct (prepare_data_perms_divide pickle args g k Hg Hk).
Qed.

Lemma iterative_run_complete (pickle : dict)
    (args : list (list word)) (g : globals) (m : Z)
    (printed : list (list Z)) (e : result unit) :
  prepare_data pickle args = Ret g →
  keyed_by_signature pickle →
  max_words g = Ret m →
  iterative_run g m printed e →
  e = Ret () ∧
  printed ≡ₚ (iterative_in_order g m).1 ∧
  ∀ c, c ∈ printed ↔
    c `sublist_of` perms g ∧ 1 ≤ Z.of_nat (length c) ≤ m - 1 ∧
    prod c = base_signature g.
Proof.
  intros Hg Hkeyed _ Hrun.
  pose proof (prepare_data_perms_known _ _ _ Hg) as Hknown.
  apply prepare_data_Ret in Hg as (ws & _ & _ & Hd & Hsig & _).
  rewrite <- Hd in Hkeyed.
  destruct (iterative_run_keyed g Hkeyed Hknown m printed e Hrun)
    as (He & Hperm & _).
  split; [done |]. split; [done |].
  intros c. rewrite Hperm. unfold iterative_in_order.
  rewrite lazy_filter_total.
  2:{ apply Forall_forall. intros c' Hc'.
      by apply (candidates_pre_filter g Hkeyed Hknown m (range 1 m)
                  (map (size_combinations g) (range 1 m)));
        [apply enumerates_in_order |]. }
  cbn [fst]. rewrite !list_elem_of_filter, truthy_prod_and_filter_iff.
  rewrite (enumerates_elem_of g m _ _ c (enumerates_in_order g m)).
  split.
  - intros [[Hprod _] [_ [Hlen Hsub]]]. done.
  - intros (Hsub & Hlen & Hprod). split; [| split; [| done]].
    + split; [done |]. intros ->. simpl in Hlen. lia.
    + apply pre_filter_solution; [done .. | | done].
      rewrite Forall_forall in Hknown |- *. intros x Hx.
      apply Hknown. by eapply elem_of_sublist.
Qed.

(** X10. Over a dictionary keyed by signature the iterative search is
    complete and independent of the pool order: no run is stopped by an
    exception, every run prints the same combinations as the in-order
    loop, and these are exactly the subsequences of the sub-signature
    list of 1 to [max_words - 1] signatures whose product is the
    signature of the phrase. *)
Theorem iterative_prints_all_matches (pickle : dict)
    (args : list (list word)) (g : globals) (m : Z)
    (printed : list (list Z)) (e : result unit) :
  prepare_data pickle args = Ret g →
  keyed_by_signature pickle →
  max_words g = Ret m →
  iterative_run g m printed e →
  e = Ret () ∧
  printed ≡ₚ (iterative_in_order g m).1 ∧
  ∀ c, c ∈ printed ↔
    c `sublist_of` perms g ∧ 1 ≤ Z.of_nat (length c) ≤ m - 1 ∧
    prod c = base_signature g.
Proof. exact (iterative_run_complete pickle args g m printed e). Qed.

Lemma print_line_anagram (pickle : dict)
    (args : list (list word)) (g : globals) (m : Z)
    (printed : list (list Z)) (e : result unit) (c : list Z) :
  prepare_data pickle args = Ret g →
  keyed_by_signature pickle →
  iterative_run g m printed e →
  c ∈ printed →
  ∃ groups, print_line g c = Ret groups ∧
    ∀ chosen, Forall2 (λ w ws, w ∈ ws) chosen groups →
      concat chosen ≡ₚ base g.
Proof.
  intros Hg Hkeyed Hrun Hc.
  pose proof (prepare_data_perms_known _ _ _ Hg) as Hknown.
  destruct (iterative_run_printed g m printed e c Hrun Hc)
    as (sizes & batches & Henum & Hcand & _ & Hprod).
  apply truthy_prod_and_filter in Hprod as [Hprod _].
  apply (enumerates_elem_of g m sizes batches c Henum) in Hcand as [_ Hsub].
  apply prepare_data_Ret in Hg as (ws & _ & _ & Hd & Hsig & _).
  rewrite <- Hd in Hkeyed.
  assert (Hdom : Forall (λ x, x ∈ dom (dictionary g)) c).
  { rewrite Forall_forall in Hknown |- *. intros x Hx.
    apply Hknown. by eapply elem_of_sublist. }
  assert (Hgroups : ∃ groups, print_line g c = Ret groups ∧
            Forall2 (λ ws x, dictionary g !! x = Some ws) groups c).
  { unfold print_line. clear Hsub Hprod Hc.
    induction Hdom as [|x c [wsx Hx]%elem_of_dom _ (groups & Hgr & Hall)].
    - exists []. split; [reflexivity | constructor].
    - exists (wsx :: groups). split; [| by constructor].
      rewrite mapM_cons. unfold lookup_dict in *. rewrite Hx.
      cbn [of_option mbind result_bind]. rewrite Hgr. reflexivity. }
  destruct Hgroups as (groups & Hgr & Hall). exists groups. split; [done |].
  intros chosen Hchosen.
  apply (signature_injective _ _ (base_signature g)); [| done].
  rewrite <- Hprod. apply word_signature_concat.
  clear Hgr Hprod Hsub Hdom Hc. revert chosen Hchosen.
  induction Hall as [|wsx x groups c Hx _ IH]; intros chosen Hchosen.
  - inversion Hchosen. constructor.
  - inversion Hchosen as [|w ? chosen' ? Hw Hrest]; subst.
    constructor; [| by apply IH].
    destruct (Hkeyed x wsx Hx) as [_ Hsigs].
    rewrite Forall_forall in Hsigs. by apply Hsigs.
Qed.

(** X11. Over a dictionary keyed by signature every printed line is an
    anagram of the phrase: the line shows one word group per signature,
    and one word picked from each group, put end to end, uses exactly
    the letters of the phrase. *)
Theorem printed_line_is_anagram (pickle : dict)
    (args : list (list word)) (g : globals) (m : Z)
    (printed : list (list Z)) (e : result unit) (c : list Z) :
  prepare_data pickle args = Ret g →
  keyed_by_signature pickle →
  iterative_run g m printed e →
  c ∈ printed →
  ∃ groups, print_line g c = Ret groups ∧
    ∀ chosen, Forall2 (λ w ws, w ∈ ws) chosen groups →
      concat chosen ≡ₚ base g.
Proof. exact (print_line_anagram pickle args g m printed e c). Qed.

(** X12. For a phrase of at most two letters the bound on the number of
    words is 1, no size is tried and the iterative search prints
    nothing, whatever the dictionary: also when the phrase itself is a
    dictionary word. *)
Theorem iterative_short_phrase (pickle : dict) (args : list (list word))
    (g : globals) :
  prepare_data pickle args = Ret g →
  (length (base g) ≤ 2)%nat →
  max_words g = Ret 1 ∧
  iterative pickle args = Ret [] ∧
  ∀ printed e, iterative_run g 1 printed e → printed = [] ∧ e = Ret ().
Proof.
  intros Hg Hlen.
  assert (Hmax : max_words g = Ret 1).
  { unfold max_words.
    destruct (length (base g)) as [|[|[|n]]]; [| | | lia];
      vm_compute; reflexivity. }
  split; [done |]. split.
  - unfold iterative. rewrite Hg. cbn [mbind result_bind]. rewrite Hmax.
    reflexivity.
  - intros printed e (sizes & batches & [Hsizes Hbatches] & Hrun).
    change (range 1 1) with (@nil Z) in Hsizes.
    apply Permutation_nil_r in Hsizes as ->.
    inversion Hbatches; subst. cbn in Hrun. destruct Hrun as [-> Hp].
    split; [| done]. by apply Permutation_nil_r in Hp.
Qed.

(** X13. What [pre_filter] does with a combination: it returns a truth
    value when every signature has a non-empty dictionary entry, raises
    [KeyError] only for a signature missing from the dictionary and
    [IndexError] only for a signature whose entry is empty. *)
Theorem pre_filter_outcome (g : globals) (c : list Z) :
  match pre_filter g c with
  | Ret _ => Forall (λ x, ∃ w ws, dictionary g !! x = Some (w :: ws)) c
  | Raise KeyError => ∃ x, x ∈ c ∧ dictionary g !! x = None
  | Raise IndexError => ∃ x, x ∈ c ∧ dictionary g !! x = Some []
  | _ => False
  end.
Proof.
  unfold pre_filter, letter_count.
  remember (λ x : Z, ws ← lookup_dict (dictionary g) x;
                     w ← of_option IndexError (head ws);
                     mret (Z.of_nat (length w))) as f eqn:Hf.
  assert (H : match mapM f c with
              | Ret _ => Forall (λ x, ∃ w ws, dictionary g !! x = Some (w :: ws)) c
              | Raise KeyError => ∃ x, x ∈ c ∧ dictionary g !! x = None
              | Raise IndexError => ∃ x, x ∈ c ∧ dictionary g !! x = Some []
              | _ => False
              end).
  { induction c as [|x c IH]; [constructor |].
    rewrite mapM_cons.
    replace (f x) with (ws ← of_option KeyError (dictionary g !! x);
                        w ← of_option IndexError (head ws);
                        mret (Z.of_nat (length w)))
      by (by rewrite Hf).
    destruct (dictionary g !! x) as [[|w ws]|] eqn:Hx; cbn.
    - exists x. split; [left | done].
    - destruct (mapM f c) as [lens | [] |]; cbn; try done.
      + constructor; [by exists w, ws | done].
      + destruct IH as (y & Hy & Hnone). exists y. split; [by right | done].
      + destruct IH as (y & Hy & Hnone). exists y. split; [by right | done].
    - exists x. split; [left | done]. }
  destruct (mapM f c) as [lens | [] |]; cbn; done.
Qed.

(** ** The recursive mode on the output of [prepare_data] *)

(** A positive integer divided by itself is the float 1. *)
Lemma truediv_same (a : Z) :
  0 < a → Py.truediv a a = Ret (Py.Float (2 ^ 52) (-52)).
Proof.
  intros Ha. rewrite PyFacts.truediv_pos by done. cbv zeta.
  assert (He : Py.quot_log2 a a = 0).
  { unfold Py.quot_log2, Py.quot_ge_pow2. rewrite Z.sub_diag.
    change (0 <=? 0) with true. cbv iota. change (2 ^ 0) with 1.
    rewrite Z.mul_1_r, Z.leb_refl. reflexivity. }
  rewrite He. change (Z.max (0 - 52) (-1074)) with (-52).
  change (0 <=? -52) with false. cbv iota. change (- (-52)) with 52.
  rewrite PyFacts.round_half_even_exact;
    [| done | rewrite Z.mul_comm; apply Z_mod_mult].
  rewrite (Z.mul_comm a), Z_div_mult by lia.
  change (2 ^ (-52)) with 0. rewrite Z.mul_0_r.
  change (2 ^ 1024 <=? 0) with false. reflexivity.
Qed.

Lemma int_truediv_same (a : Z) : 0 < a → Py.int_truediv a a = Ret 1.
Proof.
  intros Ha. unfold Py.int_truediv. rewrite truediv_same by done.
  vm_compute. reflexivity.
Qed.

Lemma sorted_head (l : list Z) (v : Z) :
  StronglySorted Z.gt l → v ∈ l → (∀ k, k ∈ l → k ≤ v) →
  ∃ rest, l = v :: rest.
Proof.
  intros Hsorted Hv Hmax. destruct l as [|x rest]; [by apply elem_of_nil in Hv |].
  apply elem_of_cons in Hv as [-> | Hv]; [by eexists |].
  apply StronglySorted_inv in Hsorted as [_ Hx].
  rewrite Forall_forall in Hx. specialize (Hx v Hv).
  specialize (Hmax x ltac:(left)). lia.
Qed.

Lemma prepare_data_perms_ge_2 (pickle : dict) (args : list (list word))
    (g : globals) :
  prepare_data pickle args = Ret g → Forall (λ k, 2 ≤ k) (perms g).
Proof.
  intros Hg. apply Forall_forall. intros k Hk.
  destruct (prepare_data_perms_divide pickle args g k Hg Hk) as (_ & ? & _).
  lia.
Qed.

(** X14. The recursive mode always returns: for every phrase and
    dictionary that [prepare_data] accepts, fuel equal to the signature
    of the phrase is enough for both outputs, and more fuel gives the
    same tree and the same mapping (or the same exception). *)
Theorem recursive_terminates (pickle : dict) (args : list (list word))
    (g : globals) (fuel : nat) :
  prepare_data pickle args = Ret g →
  (Z.to_nat (base_signature g) ≤ fuel)%nat →
  recursive_tree fuel pickle args ≠ OutOfFuel ∧
  recursive_json fuel pickle args ≠ OutOfFuel ∧
  recursive_tree fuel pickle args
    = recursive_tree (Z.to_nat (base_signature g)) pickle args ∧
  recursive_json fuel pickle args
    = recursive_json (Z.to_nat (base_signature g)) pickle args.
Proof.
  intros Hg Hfuel.
  pose proof (prepare_data_perms_ge_2 _ _ _ Hg) as Hge.
  pose proof Hg as (ws & _ & _ & _ & Hsig & _)%prepare_data_Ret.
  apply word_signature_pos in Hsig.
  destruct (factor_to_tree_fuel (dictionary g) (perms g)
              (Z.to_nat (base_signature g)) Hge (base_signature g) fuel
              (Z.to_nat (base_signature g))) as [Ht Htne]; [lia .. |].
  destruct (factor_fuel (dictionary g) (perms g)
              (Z.to_nat (base_signature g)) Hge (base_signature g) fuel
              (Z.to_nat (base_signature g))) as [Hj Hjne]; [lia .. |].
  unfold recursive_tree, recursive_json. rewrite Hg.
  cbn [mbind result_bind]. rewrite <- Ht, <- Hj.
  split; [| done].
  by destruct (factor_to_tree _ fuel _ _).
Qed.

(** X15. When the phrase is itself an anagram of a dictionary word, the
    recursive mode reports that word group alone: the signature of the
    phrase is the first sub-signature, and both factorizers return at
    once on it, without trying any split into several words. *)
Theorem recursive_whole_phrase_only (pickle : dict) (args : list (list word))
    (g : globals) (ws : list word) (fuel : nat) :
  prepare_data pickle args = Ret g →
  base g ≠ [] →
  pickle !! base_signature g = Some ws →
  (∃ rest, perms g = base_signature g :: rest) ∧
  recursive_tree (S fuel) pickle args
    = Ret (mkNode (Phrase (base g)) [mkNode (WordLists [ws]) []]) ∧
  recursive_json (S fuel) pickle args = Ret (JWords ws).
Proof.
  intros Hg Hne Hws.
  pose proof Hg as (wds & _ & _ & Hd & Hsig & Hperms)%prepare_data_Ret.
  assert (Hhead : ∃ rest, perms g = base_signature g :: rest).
  { apply sorted_head.
    - by eapply sub_word_signatures_sorted.
    - destruct (sub_word_signatures_elem_of pickle (base g) _ Hsig)
        as (l & Hl & Hspec).
      assert (l = perms g) as -> by congruence.
      apply Hspec. split; [by apply elem_of_dom |].
      by exists (base g).
    - intros k Hk.
      destruct (prepare_data_perms_divide pickle args g k Hg Hk)
        as (_ & ? & _). lia. }
  split; [done |]. destruct Hhead as [rest Hrest].
  pose proof (word_signature_ge_2 _ _ Hne Hsig) as Hge.
  unfold recursive_tree, recursive_json. rewrite Hg.
  cbn [mbind result_bind]. rewrite Hrest, Hd.
  cbn [factor_to_tree factor_to_tree_loop factor factor_loop].
  rewrite Z.eqb_refl. cbn [negb]. unfold lookup_dict. rewrite Hws.
  split; [reflexivity |].
  unfold Py.mod_. destruct (Z.eqb_spec (base_signature g) 0); [lia |].
  cbn [mbind result_bind]. rewrite Z_mod_same_full.
  change (0 =? 0) with true. cbv iota.
  rewrite int_truediv_same by lia. cbn [mbind result_bind mret result_ret].
  change (negb (1 =? 1)) with false. cbv iota.
  rewrite truediv_same by lia. cbn [mbind result_bind].
  change (Py.eqb_int (Py.Float (2 ^ 52) (-52)) 1) with true. cbv iota.
  reflexivity.
Qed.

Lemma chosen_words_signatures (d : dict) (numbers : list Z)
    (factors : list Z) (path : list label) (chosen : list word) :
  keyed_by_signature d →
  Forall2 (λ f lbl, f ∈ numbers ∧ labels d f lbl) factors path →
  Forall2 (λ w lbl, w ∈ label_words lbl) chosen path →
  Forall2 (λ w f, word_signature w = Ret f) chosen factors.
Proof.
  intros Hkeyed Hf. revert chosen.
  induction Hf as [|f lbl factors path [_ (ws & Hws & Hlbl)] _ IH];
    intros chosen Hc.
  - inversion Hc. constructor.
  - inversion Hc as [|w ? chosen' ? Hw Hrest]; subst.
    constructor; [| by apply IH].
    destruct (Hkeyed f ws Hws) as [_ Hsigs].
    rewrite Forall_forall in Hsigs. apply Hsigs.
    destruct Hlbl as [-> | ->]; cbn in Hw; [done |].
    by rewrite app_nil_r in Hw.
Qed.

(** X16. Over a dictionary keyed by signature and for a phrase whose
    signature is below [2^53], every root-to-leaf path of the tree of
    the recursive mode is an anagram of the phrase: one word picked
    from each node of the path, put end to end, uses exactly the
    letters of the phrase. *)
Theorem recursive_paths_are_anagrams (pickle : dict)
    (args : list (list word)) (g : globals) (fuel : nat)
    (forest : list Node) (path : list label) (chosen : list word) :
  prepare_data pickle args = Ret g →
  keyed_by_signature pickle →
  base_signature g < 2 ^ 53 →
  recursive_tree fuel pickle args = Ret (mkNode (Phrase (base g)) forest) →
  path ∈ concat (map paths forest) →
  Forall2 (λ w lbl, w ∈ label_words lbl) chosen path →
  concat chosen ≡ₚ base g.
Proof.
  intros Hg Hkeyed Hsmall Htree Hpath Hchosen.
  pose proof (prepare_data_perms_ge_2 _ _ _ Hg) as Hge.
  pose proof Hg as (wds & _ & _ & Hd & Hsig & _)%prepare_data_Ret.
  unfold recursive_tree in Htree. rewrite Hg in Htree.
  cbn [mbind result_bind] in Htree.
  destruct (factor_to_tree _ _ _ _) as [forest' | |] eqn:Hforest;
    [| discriminate ..].
  injection Htree as ->.
  apply factor_to_tree_exact in Hforest.
  - destruct (Hforest path Hpath) as (factors & Hfactors & Hprod).
    rewrite Hd in Hfactors.
    pose proof (chosen_words_signatures _ _ _ _ _ Hkeyed Hfactors Hchosen)
      as Hsigs.
    apply word_signature_concat in Hsigs. rewrite Hprod in Hsigs.
    by apply (signature_injective _ _ (base_signature g)).
  - pose proof (word_signature_pos _ _ Hsig). lia.
  - eapply Forall_impl; [exact Hge |]. intros k Hk. simpl in Hk. lia.
Qed.

(** X17. With the factor 1 at the head of the list the recursion never
    ends: 1 divides the value, the quotient is the value again and the
    call repeats; no fuel suffices for either factorizer (in Python,
    the recursion limit is hit). *)
Theorem factor_one_diverges (d : dict) (fuel : nat) (value : Z)
    (rest : list Z) :
  1 < value < 2 ^ 53 →
  factor_to_tree d fuel value (1 :: rest) = OutOfFuel ∧
  factor d fuel value (1 :: rest) = OutOfFuel.
Proof.
  intros Hv.
  assert (Hq : Py.int_truediv value 1 = Ret value).
  { rewrite PyFacts.int_truediv_exact; rewrite ?Z.div_1_r, ?Z.mod_1_r;
      try done; lia. }
  induction fuel as [|fuel [IHt IHj]]; [done |].
  assert (Hmod : Py.mod_ value 1 = Ret 0).
  { unfold Py.mod_. change (1 =? 0) with false. cbv iota.
    by rewrite Z.mod_1_r. }
  assert (Hne : (value =? 1) = false) by (apply Z.eqb_neq; lia).
  split.
  - cbn [factor_to_tree factor_to_tree_loop].
    rewrite Hne. cbn [negb]. rewrite Hmod. cbn [mbind result_bind].
    change (0 =? 0) with true. cbv iota. rewrite Hq.
    cbn [mbind result_bind]. by rewrite IHt.
  - cbn [factor factor_loop]. rewrite Hmod. cbn [mbind result_bind].
    change (0 =? 0) with true. cbv iota. rewrite Hq.
    cbn [mbind result_bind mret result_ret]. rewrite Hne. cbn [negb].
    cbv iota. by rewrite IHj.
Qed.

(** ** The cost of the enumeration *)

Lemma combinations_too_long {A} (l : list A) (r : nat) :
  (length l < r)%nat → combinations l r = [].
Proof.
  revert r. induction l as [|x l IH]; intros [|r] Hr; simpl in *;
    try lia; [done |].
  rewrite (IH r), (IH (S r)) by lia. done.
Qed.

Lemma combinations_0 {A} (l : list A) : combinations l 0 = [[]].
Proof. by destruct l. Qed.

Lemma count_combinations_S {A} (l : list A) (k : nat) :
  count_combinations l (S k)
  = (count_combinations l k + length (combinations l k))%nat.
Proof.
  unfold count_combinations. rewrite seq_S, sum_list_with_app. simpl. lia.
Qed.

Lemma count_combinations_cons {A} (x : A) (l : list A) (k : nat) :
  (count_combinations (x :: l) (S k) + 1
   = count_combinations l k + count_combinations l (S k) + 1)%nat.
Proof.
  induction k as [|k IH].
  - unfold count_combinations. cbn [seq sum_list_with].
    rewrite !combinations_0. simpl. lia.
  - rewrite (count_combinations_S (x :: l) (S k)).
    rewrite (count_combinations_S l (S k)).
    cbn [combinations]. rewrite length_app, length_map.
    pose proof (count_combinations_S l k). lia.
Qed.

Lemma count_combinations_all {A} (l : list A) :
  count_combinations l (S (length l)) = (2 ^ length l)%nat.
Proof.
  induction l as [|x l IH]; [reflexivity |].
  pose proof (count_combinations_cons x l (S (length l))) as Hc.
  rewrite (count_combinations_S l (S (length l))) in Hc.
  rewrite combinations_too_long in Hc by lia.
  cbn [length] in *. rewrite Nat.pow_succ_r'. lia.
Qed.

Lemma extend_signatures_length (w : word) (sizes acc l : list Z) :
  extend_signatures w sizes acc = Ret l →
  length l
  = (length acc
     + sum_list_with (λ i, length (combinations w (Z.to_nat i))) sizes)%nat.
Proof.
  revert acc. induction sizes as [|i sizes IH]; intros acc; simpl.
  - intros [= <-]. lia.
  - intros (sigs & Hsigs & Hrest)%bind_Ret.
    apply mapM_Ret, Forall2_length in Hsigs.
    rewrite (IH _ Hrest), length_app. lia.
Qed.

(** X18. For a phrase of [L] table letters the loop of
    [sub_word_signatures] computes [2^L - 1] signatures, one for every
    non-empty choice of letter positions, before duplicates are
    removed. *)
Theorem sub_word_signatures_cost (w : word) (s : Z) :
  word_signature w = Ret s →
  ∃ word_perms,
    extend_signatures w (range 1 (Z.of_nat (length w) + 1)) [] = Ret word_perms ∧
    length word_perms = (2 ^ length w - 1)%nat.
Proof.
  intros Hs.
  destruct (extend_signatures_total w (range 1 (Z.of_nat (length w) + 1)) [] s Hs)
    as [word_perms Hwp].
  exists word_perms. split; [done |].
  rewrite (extend_signatures_length _ _ _ _ Hwp). cbn [length].
  pose proof (count_combinations_all w) as Hall.
  unfold count_combinations in Hall.
  rewrite <- cons_seq in Hall. cbn [sum_list_with] in Hall.
  rewrite combinations_0 in Hall. cbn [length] in Hall.
  rewrite <- seq_shift in Hall.
  unfold range.
  replace (Z.to_nat (Z.of_nat (length w) + 1 - 1)) with (length w) by lia.
  assert (Heq : ∀ k,
    sum_list_with (λ i, length (combinations w (Z.to_nat i)))
      (map (λ i, 1 + Z.of_nat i) k)
    = sum_list_with (λ r, length (combinations w r)) (map S k)).
  { induction k as [|i k IH]; [done |]. cbn [map sum_list_with].
    rewrite IH. by replace (Z.to_nat (1 + Z.of_nat i)) with (S i) by lia. }
  rewrite Heq. lia.
Qed.

(** ** What the tree output never does *)

(** The quotient by a divisor of at least 2 of a value up to [2^1024]
    fits a float. *)
Lemma int_truediv_fits (a b : Z) :
  0 < a ≤ 2 ^ 1024 → 2 ≤ b → a mod b = 0 →
  ∃ q, Py.int_truediv a b = Ret q.
Proof.
  intros [Ha Hbig] Hb Hmod.
  destruct (Py.int_truediv a b) as [q | e |] eqn:Hq; [by eexists | |].
  - exfalso. revert Hq. unfold Py.int_truediv.
    rewrite PyFacts.truediv_pos by lia. cbv zeta.
    set (x := Z.max (Py.quot_log2 a b - 52) (-1074)).
    set (m := if 0 <=? x then _ else _).
    destruct (2 ^ 1024 <=? m * 2 ^ x) eqn:Hov; [| discriminate].
    intros _. apply Z.leb_le in Hov.
    assert (HQ : a = b * (a / b)) by (apply Z_div_exact_full_2; lia).
    assert (0 < 2 ^ 1024) by (apply Z.pow_pos_nonneg; lia).
    set (T := 2 ^ 1024) in *.
    destruct (0 <=? x) eqn:Hx.
    + apply Z.leb_le in Hx.
      assert (He : 0 ≤ Py.quot_log2 a b) by lia.
      pose proof (PyFacts.quot_log2_lower a b Ha ltac:(lia) He) as Hlow.
      assert (Hpe : 2 ^ Py.quot_log2 a b = 2 ^ x * 2 ^ 52).
      { rewrite <- Z.pow_add_r by lia. f_equal. lia. }
      assert (HP : 0 < 2 ^ x) by (apply Z.pow_pos_nonneg; lia).
      set (P := 2 ^ x) in *.
      assert (H52 : 2 ^ 52 = 4503599627370496) by reflexivity.
      rewrite H52 in Hpe.
      assert (Hdiv : a / (b * P) = a / b / P).
      { rewrite <- Z.div_div by lia. reflexivity. }
      pose proof (PyFacts.round_half_even_upper a (b * P)) as Hu.
      rewrite Hdiv in Hu.
      pose proof (Z.mul_div_le (a / b) P HP) as Hfl.
      subst m. set (M := Py.round_half_even a (b * P)) in *.
      set (Q := a / b) in *.
      assert (M * P ≤ Q + P) by nia.
      assert (P * 4503599627370496 ≤ Q) by nia.
      nia.
    + apply Z.leb_gt in Hx. rewrite (Z.pow_neg_r 2 x) in Hov by lia. lia.
  - by apply PyFacts.int_truediv_fuel in Hq.
Qed.

Section tree_returns.
Variable d : dict.
Variable numbers : list Z.
Hypothesis numbers_ge_2 : Forall (λ k, 2 ≤ k) numbers.
Hypothesis numbers_known : Forall (λ k, k ∈ dom d) numbers.

Lemma factor_to_tree_loop_returns (self : Z → result (list Node))
    (value : Z) (rest : list Z) (acc : list Node) :
  0 < value ≤ 2 ^ 1024 →
  (∀ q, 0 < q < value → ∃ forest, self q = Ret forest) →
  Forall (λ k, 2 ≤ k ∧ k ∈ dom d) rest →
  ∃ forest, factor_to_tree_loop d self value rest acc = Ret forest.
Proof.
  intros Hv Hself Hrest. revert acc.
  induction Hrest as [|number rest [Hge Hdom] _ IH]; intros acc;
    cbn [factor_to_tree_loop]; [by eexists |].
  apply elem_of_dom in Hdom as [ws Hws].
  destruct (Z.eqb_spec value number) as [-> | Hne]; cbn [negb].
  - unfold lookup_dict. rewrite Hws. by eexists.
  - unfold Py.mod_. destruct (Z.eqb_spec number 0) as [| _]; [lia |].
    cbn [mbind result_bind].
    destruct (Z.eqb_spec (value mod number) 0) as [Hmod | _]; [| apply IH].
    destruct (int_truediv_fits value number Hv Hge Hmod) as [q Hq].
    rewrite Hq. cbn [mbind result_bind].
    apply PyFacts.int_truediv_decreases in Hq; [| lia | done ..].
    destruct (Hself q Hq) as [factored ->]. cbn [mbind result_bind].
    destruct (0 <? length factored)%nat; [| apply IH].
    unfold lookup_dict. rewrite Hws. cbn [of_option mbind result_bind].
    apply IH.
Qed.

Lemma factor_to_tree_returns (fuel : nat) (value : Z) :
  0 < value ≤ 2 ^ 1024 → (Z.to_nat value ≤ fuel)%nat →
  ∃ forest, factor_to_tree d fuel value numbers = Ret forest.
Proof.
  revert value. induction fuel as [|fuel IH]; intros value Hv Hfuel; [lia |].
  cbn [factor_to_tree]. apply factor_to_tree_loop_returns; [done | |].
  - intros q Hq. apply IH; lia.
  - rewrite Forall_forall in numbers_ge_2, numbers_known |- *.
    intros k Hk. split; [by apply numbers_ge_2 | by apply numbers_known].
Qed.
End tree_returns.

(** X19. The tree output of the recursive mode never fails: for every
    phrase that [prepare_data] accepts and whose signature is at most
    [2^1024], [factor_to_tree] raises no [KeyError], no
    [ZeroDivisionError] and no [OverflowError] and returns a forest,
    whatever the dictionary. *)
Theorem recursive_tree_returns (pickle : dict) (args : list (list word))
    (g : globals) (fuel : nat) :
  prepare_data pickle args = Ret g →
  base_signature g ≤ 2 ^ 1024 →
  (Z.to_nat (base_signature g) ≤ fuel)%nat →
  ∃ forest,
    recursive_tree fuel pickle args = Ret (mkNode (Phrase (base g)) forest).
Proof.
  intros Hg Hbig Hfuel.
  pose proof (prepare_data_perms_ge_2 _ _ _ Hg) as Hge.
  pose proof (prepare_data_perms_known _ _ _ Hg) as Hknown.
  pose proof Hg as (ws & _ & _ & _ & Hsig & _)%prepare_data_Ret.
  apply word_signature_pos in Hsig.
  destruct (factor_to_tree_returns (dictionary g) (perms g) Hge Hknown
              fuel (base_signature g)) as [forest Hforest]; [lia | done |].
  exists forest. unfold recursive_tree. rewrite Hg.
  cbn [mbind result_bind]. by rewrite Hforest.
Qed.

(** The lowercasing used for the phrase and the one used for the word
    files send every character to the same table entry or to none. *)
Lemma lower_str_lower (c : ascii) : primes !! lower c = primes !! str_lower c.
Proof.
  destruct c as [[] [] [] [] [] [] [] []]; vm_compute; reflexivity.
Qed.


(** X21. The two outputs of the recursive mode agree in the exact
    range: for a dictionary without empty entries and a phrase whose
    signature is below [2^53], the value dumped with [--json] is the
    tree of the default output put in mapping form, and the two calls
    raise the same exceptions. *)
Theorem recursive_outputs_agree (pickle : dict) (args : list (list word))
    (g : globals) (fuel : nat) :
  prepare_data pickle args = Ret g →
  (∀ k ws, pickle !! k = Some ws → ws ≠ []) →
  base_signature g < 2 ^ 53 →
  recursive_json fuel pickle args =
    t ← recursive_tree fuel pickle args; mret (to_json (children t)).
Proof.
  intros Hg Hne Hsmall.
  pose proof Hg as (wds & _ & _ & Hd & Hsig & _)%prepare_data_Ret.
  unfold recursive_json, recursive_tree. rewrite Hg.
  cbn [mbind result_bind]. rewrite Hd.
  rewrite (factor_exact pickle (perms g) Hne).
  - by destruct (factor_to_tree _ _ _ _).
  - pose proof (word_signature_pos _ _ Hsig). lia.
  - apply Forall_forall. intros k Hk.
    destruct (prepare_data_perms_divide pickle args g k Hg Hk) as (_ & ? & _).
    lia.
Qed.

(** ** The further properties at concrete inputs *)

Example create_dict_sample :
  create_dict sample_scrabble sample_text ∅ = Ret sample_dict.
Proof. vm_compute. reflexivity. Qed.

(** X1 on the phrase "ai". *)
Lemma sub_word_signatures_spec_witness :
  word_signature (str "ai") = Ret 46 ∧
  ∃ l, sub_word_signatures dict_ai (str "ai") = Ret l ∧
    ∀ k, k ∈ l ↔
      k ∈ dom dict_ai ∧
      ∃ c, c ≠ [] ∧ c `sublist_of` str "ai" ∧ word_signature c = Ret k.
Proof.
  assert (H : word_signature (str "ai") = Ret 46) by (vm_compute; reflexivity).
  split; [exact H |].
  exact (sub_word_signatures_spec dict_ai (str "ai") 46 H).
Defined.

(** X2 on the phrase "ai". *)
Lemma sub_word_signatures_decreasing_witness :
  sub_word_signatures dict_ai (str "ai") = Ret [46; 23; 2] ∧
  StronglySorted Z.gt [46; 23; 2].
Proof.
  assert (H : sub_word_signatures dict_ai (str "ai") = Ret [46; 23; 2])
    by (vm_compute; reflexivity).
  split; [exact H |].
  exact (sub_word_signatures_decreasing dict_ai (str "ai") [46; 23; 2] H).
Defined.

(** X3 on the phrase "ai" and its sub-signature 23. *)
Lemma perms_divide_base_signature_witness :
  prepare_data dict_ai [[str "ai"]] = Ret globals_ai ∧
  23 ∈ perms globals_ai ∧
  23 ∈ dom (dictionary globals_ai) ∧
  2 ≤ 23 ≤ base_signature globals_ai ∧ (23 | base_signature globals_ai).
Proof.
  assert (Hg : prepare_data dict_ai [[str "ai"]] = Ret globals_ai)
    by (vm_compute; reflexivity).
  assert (Hk : 23 ∈ perms globals_ai) by by_computation.
  split; [exact Hg |]. split; [exact Hk |].
  exact (perms_divide_base_signature dict_ai [[str "ai"]] globals_ai 23 Hg Hk).
Defined.

(** X4 on the phrase "a i". *)
Lemma sub_word_signatures_foreign_witness :
  " "%char ∈ str "a i" ∧ ¬ table_letter " " ∧
  sub_word_signatures dict_ai (str "a i") = Raise KeyError.
Proof.
  assert (Hin : " "%char ∈ str "a i") by by_computation.
  assert (Hc : ¬ table_letter " ") by by_computation.
  split; [exact Hin |]. split; [exact Hc |].
  exact (sub_word_signatures_foreign dict_ai (str "a i") " " Hin Hc).
Defined.

(** X5 on the sample files, for the signature of "listen". *)
Lemma create_dict_entries_witness :
  create_dict sample_scrabble sample_text ∅ = Ret sample_dict ∧
  sample_dict !! 1914801911 =
    let ws := filter (λ w, word_signature w = Ret 1914801911)
                (admitted_words (scrabble_words sample_scrabble)
                   (split_lines [] sample_text)) in
    if decide (1914801911 = 1 ∨ ws = []) then None else Some ws.
Proof.
  assert (H : create_dict sample_scrabble sample_text ∅ = Ret sample_dict)
    by (vm_compute; reflexivity).
  split; [exact H |].
  exact (create_dict_entries sample_scrabble sample_text sample_dict
           1914801911 H).
Defined.

(** X6 on the sample files. *)
Lemma create_dict_keyed_by_signature_witness :
  create_dict sample_scrabble sample_text ∅ = Ret sample_dict ∧
  keyed_by_signature sample_dict ∧ ∀ k, k ∈ dom sample_dict → 2 ≤ k.
Proof.
  assert (H : create_dict sample_scrabble sample_text ∅ = Ret sample_dict)
    by (vm_compute; reflexivity).
  split; [exact H |].
  exact (create_dict_keyed_by_signature sample_scrabble sample_text
           sample_dict H).
Defined.

(** X7 on the sample files and the stored word "ai". *)
Lemma create_dict_words_kept_witness :
  create_dict sample_scrabble sample_text ∅ = Ret sample_dict ∧
  sample_dict !! 46 = Some [str "ai"] ∧
  str "ai" ∈ [str "ai"] ∧
  Forall table_letter (str "ai") ∧
  (length (str "ai") = 1%nat → str "ai" = str "a" ∨ str "ai" = str "i") ∧
  ((1 < length (str "ai") < 5)%nat →
   str "ai" ∈ scrabble_words sample_scrabble).
Proof.
  assert (H : create_dict sample_scrabble sample_text ∅ = Ret sample_dict)
    by (vm_compute; reflexivity).
  assert (Hk : sample_dict !! 46 = Some [str "ai"])
    by (vm_compute; reflexivity).
  assert (Hw : str "ai" ∈ [str "ai"]) by by_computation.
  split; [exact H |]. split; [exact Hk |]. split; [exact Hw |].
  exact (create_dict_words_kept sample_scrabble sample_text sample_dict
           46 [str "ai"] (str "ai") H Hk Hw).
Defined.

(** X8 on a word file whose second line is "don't". *)
Lemma create_dict_foreign_witness :
  split_lines [] (str "listen
don't
abc") = [str "listen"] ++ str "don't" :: [str "abc"] ∧
  Forall (λ w, Forall table_letter w)
    (admitted_words (scrabble_words sample_scrabble) [str "listen"]) ∧
  skipped (scrabble_words sample_scrabble)
    (map str_lower (strip (str "don't"))) = false ∧
  "'"%char ∈ map str_lower (strip (str "don't")) ∧
  ¬ table_letter "'" ∧
  create_dict sample_scrabble (str "listen
don't
abc") ∅ = Raise KeyError.
Proof.
  assert (H1 : split_lines [] (str "listen
don't
abc") = [str "listen"] ++ str "don't" :: [str "abc"])
    by (vm_compute; reflexivity).
  assert (H2 : Forall (λ w, Forall table_letter w)
            (admitted_words (scrabble_words sample_scrabble) [str "listen"]))
    by by_computation.
  assert (H3 : skipped (scrabble_words sample_scrabble)
                 (map str_lower (strip (str "don't"))) = false)
    by (vm_compute; reflexivity).
  assert (H4 : "'"%char ∈ map str_lower (strip (str "don't")))
    by by_computation.
  assert (H5 : ¬ table_letter "'") by by_computation.
  split; [exact H1 |]. split; [exact H2 |]. split; [exact H3 |].
  split; [exact H4 |]. split; [exact H5 |].
  exact (create_dict_foreign sample_scrabble _ [str "listen"] [str "abc"]
           (str "don't") "'" ∅ H1 H2 H3 H4 H5).
Defined.

(** X9 on the phrase "listen" and the combination of its signature. *)
Lemma pre_filter_necessary_witness :
  keyed_by_signature (dictionary globals_listen) ∧
  word_signature (base globals_listen) = Ret (base_signature globals_listen) ∧
  Forall (λ x, x ∈ dom (dictionary globals_listen)) [1914801911] ∧
  prod [1914801911] = base_signature globals_listen ∧
  pre_filter globals_listen [1914801911] = Ret true.
Proof.
  assert (H1 : keyed_by_signature (dictionary globals_listen))
    by by_computation.
  assert (H2 : word_signature (base globals_listen)
               = Ret (base_signature globals_listen))
    by (vm_compute; reflexivity).
  assert (H3 : Forall (λ x, x ∈ dom (dictionary globals_listen)) [1914801911])
    by by_computation.
  assert (H4 : prod [1914801911] = base_signature globals_listen)
    by (vm_compute; reflexivity).
  split; [exact H1 |]. split; [exact H2 |]. split; [exact H3 |].
  split; [exact H4 |].
  exact (pre_filter_necessary globals_listen H1 H2 [1914801911] H3 H4).
Defined.

(** X10 on the phrase "listen". *)
Lemma iterative_prints_all_matches_witness :
  prepare_data dict_listen [[str "listen"]] = Ret globals_listen ∧
  keyed_by_signature dict_listen ∧
  max_words globals_listen = Ret 3 ∧
  iterative_run globals_listen 3 [[1914801911]] (Ret ()) ∧
  Ret () = Ret () ∧
  [[1914801911]] ≡ₚ (iterative_in_order globals_listen 3).1 ∧
  ∀ c, c ∈ [[1914801911]] ↔
    c `sublist_of` perms globals_listen ∧
    1 ≤ Z.of_nat (length c) ≤ 3 - 1 ∧
    prod c = base_signature globals_listen.
Proof.
  assert (Hprep : prepare_data dict_listen [[str "listen"]]
                  = Ret globals_listen) by (vm_compute; reflexivity).
  assert (Hkeyed : keyed_by_signature dict_listen) by by_computation.
  assert (Hmax : max_words globals_listen = Ret 3)
    by (vm_compute; reflexivity).
  assert (Hrun : iterative_run globals_listen 3 [[1914801911]] (Ret ())).
  { pose proof (iterative_in_order_run globals_listen 3) as H.
    assert (Heq : iterative_in_order globals_listen 3
                  = ([[1914801911]], Ret ())) by (vm_compute; reflexivity).
    rewrite Heq in H. exact H. }
  split; [exact Hprep |]. split; [exact Hkeyed |]. split; [exact Hmax |].
  split; [exact Hrun |].
  exact (iterative_prints_all_matches dict_listen [[str "listen"]]
           globals_listen 3 [[1914801911]] (Ret ())
           Hprep Hkeyed Hmax Hrun).
Defined.

(** X11 on the phrase "listen" and its one printed line. *)
Lemma printed_line_is_anagram_witness :
  prepare_data dict_listen [[str "listen"]] = Ret globals_listen ∧
  keyed_by_signature dict_listen ∧
  iterative_run globals_listen 3 [[1914801911]] (Ret ()) ∧
  [1914801911] ∈ [[1914801911]] ∧
  ∃ groups, print_line globals_listen [1914801911] = Ret groups ∧
    ∀ chosen, Forall2 (λ w ws, w ∈ ws) chosen groups →
      concat chosen ≡ₚ base globals_listen.
Proof.
  assert (Hprep : prepare_data dict_listen [[str "listen"]]
                  = Ret globals_listen) by (vm_compute; reflexivity).
  assert (Hkeyed : keyed_by_signature dict_listen) by by_computation.
  assert (Hrun : iterative_run globals_listen 3 [[1914801911]] (Ret ())).
  { pose proof (iterative_in_order_run globals_listen 3) as H.
    assert (Heq : iterative_in_order globals_listen 3
                  = ([[1914801911]], Ret ())) by (vm_compute; reflexivity).
    rewrite Heq in H. exact H. }
  assert (Hin : [1914801911] ∈ [[1914801911]]) by by_computation.
  split; [exact Hprep |]. split; [exact Hkeyed |]. split; [exact Hrun |].
  split; [exact Hin |].
  exact (printed_line_is_anagram dict_listen [[str "listen"]]
           globals_listen 3 [[1914801911]] (Ret ()) [1914801911]
           Hprep Hkeyed Hrun Hin).
Defined.

(** X12 on the phrase "ai". *)
Lemma iterative_short_phrase_witness :
  prepare_data dict_ai [[str "ai"]] = Ret globals_ai ∧
  (length (base globals_ai) ≤ 2)%nat ∧
  max_words globals_ai = Ret 1 ∧
  iterative dict_ai [[str "ai"]] = Ret [] ∧
  ∀ printed e, iterative_run globals_ai 1 printed e →
    printed = [] ∧ e = Ret ().
Proof.
  assert (Hg : prepare_data dict_ai [[str "ai"]] = Ret globals_ai)
    by (vm_compute; reflexivity).
  assert (Hlen : (length (base globals_ai) ≤ 2)%nat) by (vm_compute; lia).
  split; [exact Hg |]. split; [exact Hlen |].
  exact (iterative_short_phrase dict_ai [[str "ai"]] globals_ai Hg Hlen).
Defined.

(** X14 on the phrase "ai" with fuel 50. *)
Lemma recursive_terminates_witness :
  prepare_data dict_ai [[str "ai"]] = Ret globals_ai ∧
  (Z.to_nat (base_signature globals_ai) ≤ 50)%nat ∧
  recursive_tree 50 dict_ai [[str "ai"]] ≠ OutOfFuel ∧
  recursive_json 50 dict_ai [[str "ai"]] ≠ OutOfFuel ∧
  recursive_tree 50 dict_ai [[str "ai"]]
    = recursive_tree (Z.to_nat (base_signature globals_ai)) dict_ai
        [[str "ai"]] ∧
  recursive_json 50 dict_ai [[str "ai"]]
    = recursive_json (Z.to_nat (base_signature globals_ai)) dict_ai
        [[str "ai"]].
Proof.
  assert (Hg : prepare_data dict_ai [[str "ai"]] = Ret globals_ai)
    by (vm_compute; reflexivity).
  assert (Hfuel : (Z.to_nat (base_signature globals_ai) ≤ 50)%nat)
    by (vm_compute; lia).
  split; [exact Hg |]. split; [exact Hfuel |].
  exact (recursive_terminates dict_ai [[str "ai"]] globals_ai 50 Hg Hfuel).
Defined.

(** X15 on the phrase "ai", itself a dictionary word. *)
Lemma recursive_whole_phrase_only_witness :
  prepare_data dict_ai [[str "ai"]] = Ret globals_ai ∧
  base globals_ai ≠ [] ∧
  dict_ai !! base_signature globals_ai = Some [str "ai"] ∧
  (∃ rest, perms globals_ai = base_signature globals_ai :: rest) ∧
  recursive_tree 1 dict_ai [[str "ai"]]
    = Ret (mkNode (Phrase (base globals_ai))
             [mkNode (WordLists [[str "ai"]]) []]) ∧
  recursive_json 1 dict_ai [[str "ai"]] = Ret (JWords [str "ai"]).
Proof.
  assert (Hg : prepare_data dict_ai [[str "ai"]] = Ret globals_ai)
    by (vm_compute; reflexivity).
  assert (Hne : base globals_ai ≠ []) by (vm_compute; discriminate).
  assert (Hws : dict_ai !! base_signature globals_ai = Some [str "ai"])
    by (vm_compute; reflexivity).
  split; [exact Hg |]. split; [exact Hne |]. split; [exact Hws |].
  exact (recursive_whole_phrase_only dict_ai [[str "ai"]] globals_ai
           [str "ai"] 0 Hg Hne Hws).
Defined.

(** X16 on the phrase "ai" over the words "i" and "a": the path through
    "i" and then "a". *)
Lemma recursive_paths_are_anagrams_witness :
  prepare_data dict_a_i [[str "ai"]] = Ret globals_a_i ∧
  keyed_by_signature dict_a_i ∧
  base_signature globals_a_i < 2 ^ 53 ∧
  recursive_tree 50 dict_a_i [[str "ai"]]
    = Ret (mkNode (Phrase (base globals_a_i))
             [mkNode (Words [str "i"])
                [mkNode (WordLists [[str "a"]]) []];
              mkNode (Words [str "a"])
                [mkNode (WordLists [[str "i"]]) []]]) ∧
  [Words [str "i"]; WordLists [[str "a"]]]
    ∈ concat (map paths [mkNode (Words [str "i"])
                           [mkNode (WordLists [[str "a"]]) []];
                         mkNode (Words [str "a"])
                           [mkNode (WordLists [[str "i"]]) []]]) ∧
  Forall2 (λ w lbl, w ∈ label_words lbl) [str "i"; str "a"]
    [Words [str "i"]; WordLists [[str "a"]]] ∧
  concat [str "i"; str "a"] ≡ₚ base globals_a_i.
Proof.
  assert (Hg : prepare_data dict_a_i [[str "ai"]] = Ret globals_a_i)
    by (vm_compute; reflexivity).
  assert (Hkeyed : keyed_by_signature dict_a_i) by by_computation.
  assert (Hsmall : base_signature globals_a_i < 2 ^ 53)
    by (vm_compute; reflexivity).
  assert (Htree : recursive_tree 50 dict_a_i [[str "ai"]]
            = Ret (mkNode (Phrase (base globals_a_i))
                     [mkNode (Words [str "i"])
                        [mkNode (WordLists [[str "a"]]) []];
                      mkNode (Words [str "a"])
                        [mkNode (WordLists [[str "i"]]) []]]))
    by (vm_compute; reflexivity).
  assert (Hpath : [Words [str "i"]; WordLists [[str "a"]]]
            ∈ concat (map paths [mkNode (Words [str "i"])
                                   [mkNode (WordLists [[str "a"]]) []];
                                 mkNode (Words [str "a"])
                                   [mkNode (WordLists [[str "i"]]) []]]))
    by by_computation.
  assert (Hchosen : Forall2 (λ w lbl, w ∈ label_words lbl)
            [str "i"; str "a"] [Words [str "i"]; WordLists [[str "a"]]])
    by by_computation.
  split; [exact Hg |]. split; [exact Hkeyed |]. split; [exact Hsmall |].
  split; [exact Htree |]. split; [exact Hpath |]. split; [exact Hchosen |].
  exact (recursive_paths_are_anagrams dict_a_i [[str "ai"]] globals_a_i 50
           _ _ _ Hg Hkeyed Hsmall Htree Hpath Hchosen).
Defined.

(** X17 on the value 46 with fuel 100. *)
Lemma factor_one_diverges_witness :
  1 < 46 < 2 ^ 53 ∧
  factor_to_tree dict_ai 100 46 (1 :: [46; 23; 2]) = OutOfFuel ∧
  factor dict_ai 100 46 (1 :: [46; 23; 2]) = OutOfFuel.
Proof.
  assert (H : 1 < 46 < 2 ^ 53) by lia.
  split; [exact H |].
  exact (factor_one_diverges dict_ai 100 46 [46; 23; 2] H).
Defined.

(** X18 on the phrase "ai": three signatures are computed. *)
Lemma sub_word_signatures_cost_witness :
  word_signature (str "ai") = Ret 46 ∧
  ∃ word_perms,
    extend_signatures (str "ai")
      (range 1 (Z.of_nat (length (str "ai")) + 1)) [] = Ret word_perms ∧
    length word_perms = (2 ^ length (str "ai") - 1)%nat.
Proof.
  assert (H : word_signature (str "ai") = Ret 46) by (vm_compute; reflexivity).
  split; [exact H |].
  exact (sub_word_signatures_cost (str "ai") 46 H).
Defined.

(** X19 on the phrase "ai" with fuel 50. *)
Lemma recursive_tree_returns_witness :
  prepare_data dict_ai [[str "ai"]] = Ret globals_ai ∧
  base_signature globals_ai ≤ 2 ^ 1024 ∧
  (Z.to_nat (base_signature globals_ai) ≤ 50)%nat ∧
  ∃ forest,
    recursive_tree 50 dict_ai [[str "ai"]]
      = Ret (mkNode (Phrase (base globals_ai)) forest).
Proof.
  assert (Hg : prepare_data dict_ai [[str "ai"]] = Ret globals_ai)
    by (vm_compute; reflexivity).
  assert (Hsmall : base_signature globals_ai ≤ 2 ^ 1024)
    by (vm_compute; discriminate).
  assert (Hfuel : (Z.to_nat (base_signature globals_ai) ≤ 50)%nat)
    by (vm_compute; lia).
  split; [exact Hg |]. split; [exact Hsmall |]. split; [exact Hfuel |].
  exact (recursive_tree_returns dict_ai [[str "ai"]] globals_ai 50
           Hg Hsmall Hfuel).
Defined.


(** X21 on the phrase "ai" with fuel 50. *)
Lemma recursive_outputs_agree_witness :
  prepare_data dict_ai [[str "ai"]] = Ret globals_ai ∧
  (∀ k ws, dict_ai !! k = Some ws → ws ≠ []) ∧
  base_signature globals_ai < 2 ^ 53 ∧
  recursive_json 50 dict_ai [[str "ai"]] =
    t ← recursive_tree 50 dict_ai [[str "ai"]]; mret (to_json (children t)).
Proof.
  assert (Hg : prepare_data dict_ai [[str "ai"]] = Ret globals_ai)
    by (vm_compute; reflexivity).
  assert (Hne : ∀ k ws, dict_ai !! k = Some ws → ws ≠ []).
  { change (map_Forall (λ (_ : Z) (ws : list word), ws ≠ []) dict_ai).
    by_computation. }
  assert (Hsmall : base_signature globals_ai < 2 ^ 53)
    by (vm_compute; reflexivity).
  split; [exact Hg |]. split; [exact Hne |]. split; [exact Hsmall |].
  exact (recursive_outputs_agree dict_ai [[str "ai"]] globals_ai 50
           Hg Hne Hsmall).
Defined.
